(** * Follower network: counting and chunked candidate release

    A shallow embedding of [app/twitch_rec/follower_network.py]:
    the [FollowerNetwork] aggregator (a [Counter] of followed ids with a
    lazily filtered accessor) and the sequential core of [FollowNetPipe]
    ([update_followings], [new_candidate_batches], [batchify]).

    Python integers are [Z]; the [Counter] is a finite map from ids to [Z];
    [batch_history] is a finite set of ids.  The iteration order of a Python
    [set] is not determined by its contents, so [list(new_candidates)] is
    modelled as an arbitrary enumeration of the set and the operations that
    depend on it are relations. *)

From Stdlib Require Import ZArith Lia.
From stdpp Require Import base relations gmap sets list strings pretty.

Local Open Scope Z_scope.

(* [set_solver] clears hypotheses it has already consumed. *)
Set Warnings "-clear-no-such-hyp".

(** ** [collections.Counter] *)

Module Counter.

(** [c[k]] for a missing key reads as [0] ([Counter.__missing__]). *)
Definition get (c : gmap string Z) (k : string) : Z := default 0 (c !! k).

(** [c.update(iterable)]: one [c[k] = c.get(k, 0) + 1] per element. *)
Definition update (c : gmap string Z) (ids : list string) : gmap string Z :=
  foldl (λ acc k, <[k := get acc k + 1]> acc) c ids.

(** [c.pop(k, None)], the value being discarded. *)
Definition pop (c : gmap string Z) (k : string) : gmap string Z := delete k c.

End Counter.

(** ** [FollowerNetwork] *)

Record FollowerNetwork := MkFollowerNetwork {
  streamer_id : string;
  min_mutual : Z;
  _followings_counter : gmap string Z
}.

(** [FollowerNetwork.__init__] *)
Definition FollowerNetwork_init (sid : string) (mm : Z) : FollowerNetwork :=
  MkFollowerNetwork sid mm ∅.

(** The property [followings_counter]: pops the streamer's own id from the
    stored counter and returns that same counter object.  The second
    component is the aggregator after the access. *)
Definition followings_counter (fn : FollowerNetwork)
  : gmap string Z * FollowerNetwork :=
  let c := Counter.pop (_followings_counter fn) (streamer_id fn) in
  (c, MkFollowerNetwork (streamer_id fn) (min_mutual fn) c).

(** The property [mutual_followings]: a fresh dict built from the accessor's
    items whose count reaches [min_mutual]. *)
Definition mutual_followings (fn : FollowerNetwork)
  : gmap string Z * FollowerNetwork :=
  let '(c, fn') := followings_counter fn in
  (filter (λ kv : string * Z, min_mutual fn' ≤ kv.2) c, fn').

(** [folnet.followings_counter.update(ids)]: the accessor returns the stored
    counter itself, so the update lands in the aggregator. *)
Definition record (ids : list string) (fn : FollowerNetwork) : FollowerNetwork :=
  let '(c, fn') := followings_counter fn in
  MkFollowerNetwork (streamer_id fn') (min_mutual fn') (Counter.update c ids).

(** ** Replies of the followings fetcher *)

(** One entry of the reply's ['data'] list; [following.get('to_id')]. *)
Record following := MkFollowing { to_id : string }.

(** What [tc.get_full_n_followings] hands to [update_followings]: [None],
    an empty dict (both falsy), or a dict with ['total'] and ['data']. *)
Inductive following_reply :=
| ReplyNone
| ReplyEmpty
| Reply (total : Z) (data : list following).

(** Python truthiness of a reply. *)
Definition truthy (r : following_reply) : bool :=
  match r with Reply _ _ => true | _ => false end.

(** ** [FollowNetPipe] *)

(** The class constant [BATCH_SZ]. *)
Definition BATCH_SZ : nat := 100.

(** The state one method call of a pipe works on: the instance attributes
    [folnet] and [max_followings], the counters [num_collected] and
    [num_skipped] (class defaults [0], rebound on the instance by [+=]), and
    [batch_history], which is the set object stored on the class. *)
Record FollowNetPipe := MkFollowNetPipe {
  folnet : FollowerNetwork;
  max_followings : Z;
  num_collected : Z;
  num_skipped : Z;
  batch_history : gset string
}.

(** An element of the list a release returns: a user id (streaming release)
    or a sub-list of user ids (flush). *)
Inductive item :=
| Uid (u : string)
| Batch (b : list string).

(** [range(0, n, step)] for a positive [step]. *)
Definition range_step (n step : nat) : list nat :=
  (λ k, k * step)%nat <$> seq 0 ((n + step - 1) / step).

(** [[candidates[i:i + sz] for i in range(0, len(candidates), sz)]] *)
Definition slices (sz : nat) (candidates : list string) : list (list string) :=
  (λ i, take sz (drop i candidates)) <$> range_step (length candidates) sz.

(** [batchify] *)
Definition batchify (candidates : list string) (fetch_all : bool) : list item :=
  if fetch_all then Batch <$> slices BATCH_SZ candidates
  else if (BATCH_SZ <? length candidates)%nat then Uid <$> take BATCH_SZ candidates
  else [].

(** Iterating a [str] yields its one-character strings. *)
Fixpoint chars (s : string) : list string :=
  match s with
  | EmptyString => []
  | String a s' => String a EmptyString :: chars s'
  end.

(** [isinstance(batches[0], list)], guarded by the truthiness of [batches]. *)
Definition head_is_list (batches : list item) : bool :=
  match batches with Batch _ :: _ => true | _ => false end.

(** [[uid for sublist in batches for uid in sublist]] *)
Definition flatten (batches : list item) : list item :=
  batches ≫= (λ sub, match sub with
                      | Batch b => Uid <$> b
                      | Uid u => Uid <$> chars u
                      end).

(** [batch_history.update(flat_candidates)]: a [str] is added, a [list] is
    unhashable and raises [TypeError] ([None]). *)
Fixpoint set_update (h : gset string) (xs : list item) : option (gset string) :=
  match xs with
  | [] => Some h
  | Uid u :: xs' => set_update (h ∪ {[u]}) xs'
  | Batch _ :: _ => None
  end.

(** [self.folnet.mutual_followings.keys() - self.batch_history], with the
    pipe after the accessor's pop. *)
Definition new_candidates (p : FollowNetPipe) : gset string * FollowNetPipe :=
  let '(mf, fn') := mutual_followings (folnet p) in
  (dom mf ∖ batch_history p,
   MkFollowNetPipe fn' (max_followings p) (num_collected p) (num_skipped p)
                   (batch_history p)).

(** The body of [new_candidate_batches] once [list(new_candidates)] has
    produced the enumeration [cands]. *)
Definition release (cands : list string) (remainder : bool) (p : FollowNetPipe)
  : option (list item * FollowNetPipe) :=
  let batches := batchify cands remainder in
  let flat_candidates :=
    if remainder && head_is_list batches then flatten batches else batches in
  h' ← set_update (batch_history p) flat_candidates;
  Some (batches,
        MkFollowNetPipe (folnet p) (max_followings p) (num_collected p)
                        (num_skipped p) h').

(** [new_candidate_batches]: [cands] is any enumeration of the set of new
    candidates; the result is the returned list and the pipe afterwards. *)
Inductive new_candidate_batches (remainder : bool) (p : FollowNetPipe)
  : list item → FollowNetPipe → Prop :=
| ncb_listing cands batches p' :
    cands ≡ₚ elements (new_candidates p).1 →
    release cands remainder (new_candidates p).2 = Some (batches, p') →
    new_candidate_batches remainder p batches p'.

(** Lines 87-93 of [update_followings]: the accept/reject accounting. *)
Definition account (reply : following_reply) (p : FollowNetPipe) : FollowNetPipe :=
  match reply with
  | Reply total foll_data =>
      if bool_decide (total ≤ max_followings p) then
        MkFollowNetPipe (record (to_id <$> foll_data) (folnet p))
                        (max_followings p) (num_collected p + 1) (num_skipped p)
                        (batch_history p)
      else
        MkFollowNetPipe (folnet p) (max_followings p) (num_collected p)
                        (num_skipped p + 1) (batch_history p)
  | _ => p
  end.

(** [update_followings] *)
Definition update_followings (reply : following_reply) (all_batches : bool)
    (p : FollowNetPipe) : list item → FollowNetPipe → Prop :=
  new_candidate_batches all_batches (account reply p).

(** The enumeration [elements] picks, for running the model. *)
Definition new_candidate_batches_exec (remainder : bool) (p : FollowNetPipe)
  : option (list item * FollowNetPipe) :=
  release (elements (new_candidates p).1) remainder (new_candidates p).2.

Definition update_followings_exec (reply : following_reply) (all_batches : bool)
    (p : FollowNetPipe) : option (list item * FollowNetPipe) :=
  new_candidate_batches_exec all_batches (account reply p).

(** The ids carried by a returned list, whichever of the two shapes it has. *)
Definition released_ids (batches : list item) : list string :=
  batches ≫= (λ it, match it with Uid u => [u] | Batch b => b end).

(** ** The sequential core of a crawl

    [update_followings] contains no suspension point, so the workers' calls
    happen one after the other in the order in which the fetches complete:
    a run is a list of replies ingested in that order, each with its
    streaming result, followed by the flush of [run]. *)
Inductive ingest_all
  : list following_reply → FollowNetPipe → list (list item) → FollowNetPipe → Prop :=
| ingest_nil p : ingest_all [] p [] p
| ingest_cons reply replies p batch p1 out p2 :
    update_followings reply false p batch p1 →
    ingest_all replies p1 out p2 →
    ingest_all (reply :: replies) p (batch :: out) p2.

(** What the workers put on [q_out]: the truthy streaming results. *)
Definition forwarded (out : list (list item)) : list (list item) :=
  filter (λ b, b ≠ []) out.

Inductive crawl (replies : list following_reply) (p : FollowNetPipe)
  : list (list item) → list item → FollowNetPipe → Prop :=
| crawl_flush out p1 remaining_batches p2 :
    ingest_all replies p out p1 →
    new_candidate_batches true p1 remaining_batches p2 →
    crawl replies p out remaining_batches p2.

Fixpoint ingest_all_exec (replies : list following_reply) (p : FollowNetPipe)
  : option (list (list item) * FollowNetPipe) :=
  match replies with
  | [] => Some ([], p)
  | reply :: replies' =>
      '(batch, p1) ← update_followings_exec reply false p;
      '(out, p2) ← ingest_all_exec replies' p1;
      Some (batch :: out, p2)
  end.

Definition crawl_exec (replies : list following_reply) (p : FollowNetPipe)
  : option (list (list item) * list item * FollowNetPipe) :=
  '(out, p1) ← ingest_all_exec replies p;
  '(remaining_batches, p2) ← new_candidate_batches_exec true p1;
  Some (out, remaining_batches, p2).

(** ** Objects of one Python process

    [batch_history] is bound once, in the class body, to one set; no method
    ever assigns [self.batch_history], so every instance reaches that set
    through the class.  Pipes and aggregators are heap objects; a pipe holds
    a reference to its aggregator. *)
Record PipeObject := MkPipeObject {
  obj_folnet : nat;
  obj_max_followings : Z;
  obj_num_collected : Z;
  obj_num_skipped : Z
}.

Record Process := MkProcess {
  class_batch_history : gset string;
  folnet_heap : gmap nat FollowerNetwork;
  pipe_heap : gmap nat PipeObject
}.

(** After the class body has run: [batch_history = set()], no instances. *)
Definition process_start : Process := MkProcess ∅ ∅ ∅.

(** [FollowerNetwork(streamer_id, min_mutual)] *)
Definition new_FollowerNetwork (sid : string) (mm : Z) (P : Process)
  : nat * Process :=
  let a := fresh (dom (folnet_heap P)) in
  (a, MkProcess (class_batch_history P)
                (<[a := FollowerNetwork_init sid mm]> (folnet_heap P))
                (pipe_heap P)).

(** [FollowNetPipe(folnet, max_followings)]: [__init__] binds the two
    instance attributes and nothing else. *)
Definition new_FollowNetPipe (fn_ref : nat) (max : Z) (P : Process)
  : nat * Process :=
  let a := fresh (dom (pipe_heap P)) in
  (a, MkProcess (class_batch_history P) (folnet_heap P)
                (<[a := MkPipeObject fn_ref max 0 0]> (pipe_heap P))).

(** The state a method of the pipe at [self] works on. *)
Definition load (self : nat) (P : Process) : option FollowNetPipe :=
  o ← pipe_heap P !! self;
  fn ← folnet_heap P !! obj_folnet o;
  Some (MkFollowNetPipe fn (obj_max_followings o) (obj_num_collected o)
                        (obj_num_skipped o) (class_batch_history P)).

(** Writing the effects of a method of the pipe at [self] back. *)
Definition store (self : nat) (p : FollowNetPipe) (P : Process) : Process :=
  match pipe_heap P !! self with
  | Some o =>
      MkProcess (batch_history p)
                (<[obj_folnet o := folnet p]> (folnet_heap P))
                (<[self := MkPipeObject (obj_folnet o) (max_followings p)
                                        (num_collected p) (num_skipped p)]>
                   (pipe_heap P))
  | None => P
  end.

(** [self.new_candidate_batches(remainder)] on a heap object. *)
Definition call_new_candidate_batches (self : nat) (remainder : bool)
    (P : Process) (batches : list item) (P' : Process) : Prop :=
  ∃ p p', load self P = Some p ∧ new_candidate_batches remainder p batches p'
          ∧ P' = store self p' P.

(** [self.update_followings(reply, all_batches)] on a heap object. *)
Definition call_update_followings (self : nat) (reply : following_reply)
    (all_batches : bool) (P : Process) (batches : list item) (P' : Process) : Prop :=
  ∃ p p', load self P = Some p ∧ update_followings reply all_batches p batches p'
          ∧ P' = store self p' P.

(** Anything the process may do next with these two classes. *)
Inductive process_step : Process → Process → Prop :=
| step_new_folnet sid mm P :
    process_step P (new_FollowerNetwork sid mm P).2
| step_new_pipe fn_ref max P :
    process_step P (new_FollowNetPipe fn_ref max P).2
| step_release self remainder P batches P' :
    call_new_candidate_batches self remainder P batches P' →
    process_step P P'
| step_update self reply all_batches P batches P' :
    call_update_followings self reply all_batches P batches P' →
    process_step P P'.

Definition call_new_candidate_batches_exec (self : nat) (remainder : bool)
    (P : Process) : option (list item * Process) :=
  p ← load self P;
  '(batches, p') ← new_candidate_batches_exec remainder p;
  Some (batches, store self p' P).

Definition call_update_followings_exec (self : nat) (reply : following_reply)
    (all_batches : bool) (P : Process) : option (list item * Process) :=
  p ← load self P;
  '(batches, p') ← update_followings_exec reply all_batches p;
  Some (batches, store self p' P).

(** ** Observations used in the statements *)

(** The counts as the public accessor shows them. *)
Definition counts (fn : FollowerNetwork) : gmap string Z :=
  (followings_counter fn).1.

(** The mapping [mutual_followings] returns. *)
Definition mutual (fn : FollowerNetwork) : gmap string Z :=
  (mutual_followings fn).1.

(** The qualifying candidates not yet released. *)
Definition unreleased (p : FollowNetPipe) : gset string :=
  (new_candidates p).1.

(** How often [k] is listed in [ids]. *)
Definition occurrences (k : string) (ids : list string) : nat :=
  length (filter (λ x, x = k) ids).

(** The followed ids of the replies that pass the [max_followings] filter,
    in the order of ingestion. *)
Definition accepted_ids (max : Z) (replies : list following_reply) : list string :=
  replies ≫= (λ r, match r with
                    | Reply total foll_data =>
                        if bool_decide (total ≤ max) then to_id <$> foll_data else []
                    | _ => []
                    end).

Definition accepted (max : Z) (r : following_reply) : bool :=
  match r with Reply total _ => bool_decide (total ≤ max) | _ => false end.

Definition rejected (max : Z) (r : following_reply) : bool :=
  match r with Reply total _ => negb (bool_decide (total ≤ max)) | _ => false end.

(** ** A small crawl, for running the model

    Subject ["S"], [min_mutual = 2]; three followers each follow the subject
    and ["X"], ["Y"]; a fourth follows too many accounts. *)

Definition demo_pipe : FollowNetPipe :=
  MkFollowNetPipe (FollowerNetwork_init "S" 2) 150 0 0 ∅.

Definition demo_reply : following_reply :=
  Reply 3 [MkFollowing "S"; MkFollowing "X"; MkFollowing "Y"].

Definition demo_mega_reply : following_reply :=
  Reply 151 [MkFollowing "S"; MkFollowing "Z"].

Definition demo_replies : list following_reply :=
  [demo_reply; ReplyNone; demo_reply; demo_mega_reply; demo_reply].

(** The pipe after the five ingestions, none of which released anything. *)
Definition demo_ingested : FollowNetPipe :=
  MkFollowNetPipe (MkFollowerNetwork "S" 2 {[ "X"%string := 3; "Y"%string := 3 ]})
                  150 3 1 ∅.

(** A follower of [n] accounts named ["0"], ["1"], ..., and a pipe with
    threshold [1] right after accounting for that follower's reply: [n]
    qualifying candidates, none released. *)
Definition backlog_reply (n : nat) : following_reply :=
  Reply (Z.of_nat n) ((λ i : nat, MkFollowing (pretty i)) <$> seq 0 n).

Definition backlog_pipe (n : nat) : FollowNetPipe :=
  account (backlog_reply n)
          (MkFollowNetPipe (FollowerNetwork_init "S" 1) 150 0 0 ∅).

(** ** Two pipes in one process

    A first crawl on streamer ["S"] releases ["A"]; a second aggregator and
    a second pipe, for streamer ["T"], are then created. *)

Definition first_crawl : Process :=
  let '(fn1, P1) := new_FollowerNetwork "S" 1 process_start in
  let '(pipe1, P2) := new_FollowNetPipe fn1 150 P1 in
  let P3 := default P2 (snd <$> call_update_followings_exec pipe1
                          (Reply 2 [MkFollowing "S"; MkFollowing "A"]) false P2) in
  default P3 (snd <$> call_new_candidate_batches_exec pipe1 true P3).

Definition second_crawl : Process :=
  let '(fn2, P5) := new_FollowerNetwork "T" 1 first_crawl in
  (new_FollowNetPipe fn2 150 P5).2.

(** The state the second pipe's methods start from. *)
Definition second_pipe : FollowNetPipe :=
  MkFollowNetPipe (FollowerNetwork_init "T" 1) 150 0 0 {[ "A"%string ]}.

(** An aggregator whose stored counter holds the streamer's own id: the
    state right after recording a report that lists it. *)
Definition self_following : FollowerNetwork :=
  record ["S"; "X"]%string (FollowerNetwork_init "S" 1).

(** Two pipes created up front, for streamers ["S"] and ["T"]; the first
    has ingested one reply and released nothing yet. *)
Definition two_pipes : Process :=
  let '(fn1, P1) := new_FollowerNetwork "S" 1 process_start in
  let '(pipe1, P2) := new_FollowNetPipe fn1 150 P1 in
  let '(fn2, P3) := new_FollowerNetwork "T" 1 P2 in
  let '(pipe2, P4) := new_FollowNetPipe fn2 150 P3 in
  default P4 (snd <$> call_update_followings_exec pipe1
                (Reply 2 [MkFollowing "S"; MkFollowing "A"]) false P4).

(** ** Reports recorded one after the other *)

(** [folnet.followings_counter.update(ids)] for each list of followed ids,
    in order. *)
Definition record_all (reports : list (list string)) (fn : FollowerNetwork)
  : FollowerNetwork :=
  foldl (λ acc ids, record ids acc) fn reports.

(** ** The worker pool of [run]

    [run] creates the queue [q_foll_ids], one producer task and
    [n_consumers] tasks running [produce_followed_ids]; it waits for the
    producer, then for [q_foll_ids.join()], cancels the workers and
    flushes.  The tasks of one event loop run one at a time and are
    switched only at an [await]: a worker is either at [await q_in.get()]
    or at [await tc.get_full_n_followings(follower_id)]. *)

(** The reserved queue item. *)
Definition SENTINEL : string := "DONE".

(** An unbounded [asyncio.Queue]: its items, oldest first, and the number
    of items put and not yet acknowledged by [task_done]. *)
Record Queue (A : Type) := MkQueue {
  queue_items : list A;
  unfinished_tasks : nat
}.
Arguments MkQueue {A} _ _.
Arguments queue_items {A} _.
Arguments unfinished_tasks {A} _.

(** [asyncio.Queue()] *)
Definition Queue_new {A : Type} : Queue A := MkQueue [] 0.

(** [q.put_nowait(x)] *)
Definition put_nowait {A : Type} (x : A) (q : Queue A) : Queue A :=
  MkQueue (queue_items q ++ [x]) (S (unfinished_tasks q)).

(** [q.task_done()]: raises [ValueError] ([None]) when called more often
    than items were put. *)
Definition task_done {A : Type} (q : Queue A) : option (Queue A) :=
  match unfinished_tasks q with
  | O => None
  | S n => Some (MkQueue (queue_items q) n)
  end.

(** What is put on [q_out]: a streaming result, or one element of the list
    a flush returned. *)
Inductive queued :=
| Streamed (new_candidate_batch : list item)
| Flushed (batch : item).

Definition queued_ids (v : queued) : list string :=
  match v with
  | Streamed b => released_ids b
  | Flushed c => released_ids [c]
  end.

(** The queued value is the Python list of strings [ids]. *)
Definition is_uid_list (v : queued) (ids : list string) : Prop :=
  v = Streamed (Uid <$> ids) ∨ v = Flushed (Batch ids).

(** Where a worker task is suspended. *)
Inductive worker :=
| AwaitGet
| AwaitFetch (follower_id : string).

Global Instance worker_eq_dec : EqDecision worker.
Proof. solve_decision. Defined.

(** The tasks of one call of [run] and what they share. *)
Record Pool := MkPool {
  q_foll_ids : Queue string;
  q_out : option (Queue queued);
  t_prod_done : bool;
  t_followings : list worker;
  self_pipe : FollowNetPipe
}.

(** [run] up to its first [await]. *)
Definition run_start (q_out : option (Queue queued)) (n_consumers : nat)
    (self : FollowNetPipe) : Pool :=
  MkPool Queue_new q_out false (replicate n_consumers AwaitGet) self.

(** [if new_candidate_batch and q_out: q_out.put_nowait(new_candidate_batch)] *)
Definition forward (q_out : option (Queue queued)) (new_candidate_batch : list item)
  : option (Queue queued) :=
  match new_candidate_batch, q_out with
  | _ :: _, Some q => Some (put_nowait (Streamed new_candidate_batch) q)
  | _, _ => q_out
  end.

(** [if q_out: [q_out.put_nowait(batch) for batch in remaining_batches]] *)
Definition forward_all (q_out : option (Queue queued)) (remaining_batches : list item)
  : option (Queue queued) :=
  match q_out with
  | Some q => Some (foldl (λ acc batch, put_nowait (Flushed batch) acc) q remaining_batches)
  | None => None
  end.

(** What a task switch can lead to: the pool goes on, or an exception was
    raised inside a task. *)
Inductive outcome :=
| Running (s : Pool)
| Raised.

(** One task runs from the [await] it was suspended at to its next one.
    The producer is the external [streamer.produce_follower_ids]: all the
    pool sees of it is that it puts strings on [q_foll_ids] and returns. *)
Inductive pool_step : Pool → outcome → Prop :=
| step_put x s :
    t_prod_done s = false →
    pool_step s (Running (MkPool (put_nowait x (q_foll_ids s)) (q_out s) false
                                 (t_followings s) (self_pipe s)))
| step_prod_returns s :
    t_prod_done s = false →
    pool_step s (Running (MkPool (q_foll_ids s) (q_out s) true
                                 (t_followings s) (self_pipe s)))
| step_get_sentinel w s rest :
    t_followings s !! w = Some AwaitGet →
    queue_items (q_foll_ids s) = SENTINEL :: rest →
    pool_step s
      (match task_done (MkQueue rest (unfinished_tasks (q_foll_ids s))) with
       | Some q => Running (MkPool q (q_out s) (t_prod_done s)
                                   (t_followings s) (self_pipe s))
       | None => Raised
       end)
| step_get_follower w s follower_id rest :
    t_followings s !! w = Some AwaitGet →
    queue_items (q_foll_ids s) = follower_id :: rest →
    follower_id ≠ SENTINEL →
    pool_step s
      (Running (MkPool (MkQueue rest (unfinished_tasks (q_foll_ids s))) (q_out s)
                       (t_prod_done s)
                       (<[w := AwaitFetch follower_id]> (t_followings s))
                       (self_pipe s)))
| step_fetched w s follower_id following_reply new_candidate_batch p' :
    t_followings s !! w = Some (AwaitFetch follower_id) →
    update_followings following_reply false (self_pipe s) new_candidate_batch p' →
    pool_step s
      (match task_done (q_foll_ids s) with
       | Some q => Running (MkPool q (forward (q_out s) new_candidate_batch)
                                   (t_prod_done s)
                                   (<[w := AwaitGet]> (t_followings s)) p')
       | None => Raised
       end).

(** A task switch after which the pool goes on. *)
Definition pool_next (s s' : Pool) : Prop := pool_step s (Running s').

(** The pool states a call [run(tc, streamer, q_out, n_consumers)] on the
    pipe [self] can be in. *)
Definition pool_reachable (q_out0 : option (Queue queued)) (n_consumers : nat)
    (self : FollowNetPipe) (s : Pool) : Prop :=
  rtc pool_next (run_start q_out0 n_consumers self) s.

(** The rest of [run], once the producer has returned and
    [q_foll_ids.join()] has: the workers are cancelled, the flush is put
    on [q_out]. *)
Inductive run_finish (s : Pool) : list item → Pool → Prop :=
| finish_flush remaining_batches p' :
    t_prod_done s = true →
    unfinished_tasks (q_foll_ids s) = 0%nat →
    new_candidate_batches true (self_pipe s) remaining_batches p' →
    run_finish s remaining_batches
      (MkPool (q_foll_ids s) (forward_all (q_out s) remaining_batches) true [] p').

(** The number of workers in the middle of a fetch. *)
Definition in_flight (ws : list worker) : nat :=
  length (filter (λ t, t ≠ AwaitGet) ws).

(** The items of [q_out], if there is one. *)
Definition out_items (q_out : option (Queue queued)) : list queued :=
  match q_out with Some q => queue_items q | None => [] end.

(** A schedule: the pool states visited, one per task switch. *)
Inductive pool_path : Pool → list Pool → Pool → Prop :=
| path_nil s : pool_path s [] s
| path_cons s s1 path s' :
    pool_next s s1 →
    pool_path s1 path s' →
    pool_path s (s1 :: path) s'.



(** The follower ids whose fetch completed between two lists of worker
    states: the workers that went from awaiting a fetch to awaiting the
    queue. *)
Definition completed_by (ws ws1 : list worker) : list string :=
  omap (λ tt : worker * worker,
          match tt with
          | (AwaitFetch follower_id, AwaitGet) => Some follower_id
          | _ => None
          end) (zip ws ws1).

Fixpoint completed_along (s : Pool) (path : list Pool) : list string :=
  match path with
  | [] => []
  | s1 :: path' =>
      completed_by (t_followings s) (t_followings s1) ++ completed_along s1 path'
  end.


(** A pool that has fetched for one follower and is fetching for another. *)
Definition demo_pool : Pool :=
  MkPool (MkQueue [SENTINEL] 2) (Some Queue_new) true
         [AwaitGet; AwaitFetch "B"; AwaitGet]
         (MkFollowNetPipe (MkFollowerNetwork "S" 2 {[ "X"%string := 1; "Y"%string := 1 ]})
                          150 1 0 ∅).

(** The same pool once the sentinel has been taken and the second fetch has
    completed: the producer has returned and nothing is unfinished. *)
Definition demo_pool_joined : Pool :=
  MkPool (MkQueue [] 0) (Some Queue_new) true
         [AwaitGet; AwaitGet; AwaitGet]
         (MkFollowNetPipe (MkFollowerNetwork "S" 2 {[ "X"%string := 2; "Y"%string := 2 ]})
                          150 2 0 ∅).

(** A schedule of [run] on [demo_pipe] with three workers: the producer puts
    ["A"], ["B"] and the sentinel and returns; two workers take ["A"] and
    ["B"]; the fetch for ["A"] completes; the sentinel is taken; the fetch
    for ["B"] completes. It passes through [demo_pool] and ends in
    [demo_pool_joined]. *)
Definition demo_schedule : list Pool :=
  let idle := [AwaitGet; AwaitGet; AwaitGet] in
  [ MkPool (MkQueue ["A"%string] 1) (Some Queue_new) false idle demo_pipe;
    MkPool (MkQueue ["A"; "B"]%string 2) (Some Queue_new) false idle demo_pipe;
    MkPool (MkQueue ["A"%string; "B"%string; SENTINEL] 3) (Some Queue_new) false
           idle demo_pipe;
    MkPool (MkQueue ["A"%string; "B"%string; SENTINEL] 3) (Some Queue_new) true
           idle demo_pipe;
    MkPool (MkQueue ["B"%string; SENTINEL] 3) (Some Queue_new) true
           [AwaitFetch "A"; AwaitGet; AwaitGet] demo_pipe;
    MkPool (MkQueue [SENTINEL] 3) (Some Queue_new) true
           [AwaitFetch "A"; AwaitFetch "B"; AwaitGet] demo_pipe;
    demo_pool;
    MkPool (MkQueue [] 1) (Some Queue_new) true
           [AwaitGet; AwaitFetch "B"; AwaitGet] (self_pipe demo_pool);
    demo_pool_joined ].

(** * Facts about the counter *)

Section counter_facts.
Implicit Types (c : gmap string Z) (ids : list string) (k : string).

Lemma occurrences_cons k i ids :
  occurrences k (i :: ids)
  = if decide (i = k) then S (occurrences k ids) else occurrences k ids.
Proof.
  unfold occurrences. rewrite filter_cons. by destruct (decide (i = k)).
Qed.

Lemma occurrences_app k ids1 ids2 :
  occurrences k (ids1 ++ ids2) = (occurrences k ids1 + occurrences k ids2)%nat.
Proof. unfold occurrences. by rewrite filter_app, length_app. Qed.

Lemma occurrences_notin k ids : k ∉ ids → occurrences k ids = 0%nat.
Proof.
  induction ids as [|i ids IH]; [done|].
  rewrite not_elem_of_cons, occurrences_cons. intros [Hne Hni].
  rewrite decide_False by done. auto.
Qed.

Lemma occurrences_pos k ids : k ∈ ids → (0 < occurrences k ids)%nat.
Proof.
  induction ids as [|i ids IH]; [by rewrite elem_of_nil|].
  rewrite elem_of_cons, occurrences_cons. intros [->|Hin].
  - rewrite decide_True by done. lia.
  - destruct (decide (i = k)); [lia|auto].
Qed.

Lemma occurrences_Permutation k ids1 ids2 :
  ids1 ≡ₚ ids2 → occurrences k ids1 = occurrences k ids2.
Proof. unfold occurrences. by intros ->. Qed.

Lemma update_cons c i ids :
  Counter.update c (i :: ids)
  = Counter.update (<[i := Counter.get c i + 1]> c) ids.
Proof. done. Qed.

Lemma update_app c ids1 ids2 :
  Counter.update c (ids1 ++ ids2)
  = Counter.update (Counter.update c ids1) ids2.
Proof. unfold Counter.update. by rewrite foldl_app. Qed.

(** The stored entry of [k] after an update. *)
Lemma lookup_update c ids k :
  Counter.update c ids !! k
  = if decide (k ∈ ids)
    then Some (Counter.get c k + Z.of_nat (occurrences k ids))
    else c !! k.
Proof.
  revert c. induction ids as [|i ids IH]; intros c.
  - by rewrite decide_False by apply not_elem_of_nil.
  - rewrite update_cons, IH, occurrences_cons. unfold Counter.get.
    destruct (decide (i = k)) as [->|Hne].
    + rewrite lookup_insert_eq. simpl.
      rewrite (decide_True (P := k ∈ k :: ids)) by (apply elem_of_cons; by left).
      destruct (decide (k ∈ ids)) as [Hin|Hni].
      * f_equal; lia.
      * rewrite (occurrences_notin k ids) by done. f_equal; lia.
    + rewrite lookup_insert_ne by done.
      destruct (decide (k ∈ ids)) as [Hin|Hni].
      * rewrite decide_True by (apply elem_of_cons; by right). done.
      * rewrite decide_False; [done|].
        rewrite not_elem_of_cons. split; [congruence|done].
Qed.

Lemma get_update c ids k :
  Counter.get (Counter.update c ids) k
  = Counter.get c k + Z.of_nat (occurrences k ids).
Proof.
  unfold Counter.get at 1. rewrite lookup_update.
  destruct (decide (k ∈ ids)); [done|].
  rewrite occurrences_notin by done. unfold Counter.get. simpl. lia.
Qed.

Lemma update_Permutation c ids1 ids2 :
  ids1 ≡ₚ ids2 → Counter.update c ids1 = Counter.update c ids2.
Proof.
  intros Hp. apply map_eq. intros k. rewrite !lookup_update.
  rewrite (occurrences_Permutation k _ _ Hp).
  destruct (decide (k ∈ ids1)) as [H1|H1], (decide (k ∈ ids2)) as [H2|H2];
    try done; exfalso.
  - apply H2. by rewrite <- Hp.
  - apply H1. by rewrite Hp.
Qed.

(** Popping a key before an update does not show once it is popped again. *)
Lemma pop_update_pop c ids k :
  Counter.pop (Counter.update (Counter.pop c k) ids) k
  = Counter.pop (Counter.update c ids) k.
Proof.
  apply map_eq. intros j. unfold Counter.pop.
  destruct (decide (j = k)) as [->|Hne].
  - by rewrite !lookup_delete_eq.
  - rewrite !lookup_delete_ne by done. rewrite !lookup_update.
    unfold Counter.get. by rewrite !lookup_delete_ne by done.
Qed.
End counter_facts.

(** * Facts about the aggregator *)

Section aggregator_facts.
Implicit Types (fn : FollowerNetwork) (ids : list string) (k : string).

Lemma counts_eq fn :
  counts fn = delete (streamer_id fn) (_followings_counter fn).
Proof. done. Qed.

Lemma followings_counter_snd fn :
  (followings_counter fn).2
  = MkFollowerNetwork (streamer_id fn) (min_mutual fn) (counts fn).
Proof. done. Qed.

Lemma mutual_eq fn :
  mutual fn = filter (λ kv : string * Z, min_mutual fn ≤ kv.2) (counts fn).
Proof. done. Qed.

Lemma mutual_followings_snd fn :
  (mutual_followings fn).2 = (followings_counter fn).2.
Proof. done. Qed.

Lemma counts_streamer fn : counts fn !! streamer_id fn = None.
Proof. rewrite counts_eq. apply lookup_delete_eq. Qed.

Lemma mutual_streamer fn : mutual fn !! streamer_id fn = None.
Proof.
  rewrite mutual_eq. apply map_lookup_filter_None. left. apply counts_streamer.
Qed.

Lemma counts_popped fn : counts (followings_counter fn).2 = counts fn.
Proof.
  rewrite followings_counter_snd, (counts_eq (MkFollowerNetwork _ _ _)). simpl.
  apply delete_id, counts_streamer.
Qed.

Lemma mutual_popped fn : mutual (followings_counter fn).2 = mutual fn.
Proof. by rewrite !mutual_eq, counts_popped. Qed.

Lemma popped_clean fn :
  _followings_counter fn !! streamer_id fn = None → (followings_counter fn).2 = fn.
Proof.
  intros Hn. rewrite followings_counter_snd, counts_eq, delete_id by done.
  by destruct fn.
Qed.

Lemma counts_record ids fn :
  counts (record ids fn)
  = Counter.pop (Counter.update (counts fn) ids) (streamer_id fn).
Proof. done. Qed.

Lemma streamer_id_record ids fn : streamer_id (record ids fn) = streamer_id fn.
Proof. done. Qed.

Lemma min_mutual_record ids fn : min_mutual (record ids fn) = min_mutual fn.
Proof. done. Qed.

Lemma elem_of_dom_mutual fn k :
  k ∈ dom (mutual fn) ↔ ∃ v, counts fn !! k = Some v ∧ min_mutual fn ≤ v.
Proof.
  rewrite elem_of_dom, mutual_eq. unfold is_Some.
  by setoid_rewrite map_lookup_filter_Some.
Qed.

(** A qualifying candidate is never the streamer. *)
Lemma dom_mutual_streamer fn : streamer_id fn ∉ dom (mutual fn).
Proof. rewrite not_elem_of_dom. apply mutual_streamer. Qed.

(** Recording a report only adds qualifying candidates. *)
Lemma dom_mutual_record ids fn : dom (mutual fn) ⊆ dom (mutual (record ids fn)).
Proof.
  intros k. rewrite !elem_of_dom_mutual. intros (v & Hv & Hle).
  assert (k ≠ streamer_id fn) as Hne.
  { intros ->. by rewrite counts_streamer in Hv. }
  rewrite counts_record, min_mutual_record. unfold Counter.pop.
  rewrite lookup_delete_ne by done. rewrite lookup_update.
  unfold Counter.get. rewrite Hv. simpl.
  destruct (decide (k ∈ ids)); eauto.
  eexists. split; [done|]. lia.
Qed.

(** Two reports recorded one after the other count as their concatenation. *)
Lemma counts_record_record ids1 ids2 fn :
  counts (record ids2 (record ids1 fn)) = counts (record (ids1 ++ ids2) fn).
Proof.
  rewrite !counts_record, streamer_id_record.
  by rewrite pop_update_pop, update_app.
Qed.
End aggregator_facts.

(** * Facts about [batchify] *)

Section slices_facts.
Variable sz : nat.
Hypothesis sz_pos : (0 < sz)%nat.
Implicit Types (l : list string).

Local Open Scope nat_scope.

Lemma div_up_bounds n :
  let m := (n + sz - 1) / sz in n ≤ m * sz ∧ (0 < n → (m - 1) * sz < n ∧ 0 < m).
Proof.
  intros m. subst m.
  pose proof (Nat.div_mod_eq (n + sz - 1) sz) as Hdm.
  pose proof (Nat.mod_upper_bound (n + sz - 1) sz) as Hub.
  set (q := (n + sz - 1) / sz) in *. set (r := (n + sz - 1) mod sz) in *.
  nia.
Qed.

Lemma slices_seq l :
  slices sz l
  = (λ k, take sz (drop (k * sz) l)) <$> seq 0 ((length l + sz - 1) / sz).
Proof. unfold slices, range_step. by rewrite <- list_fmap_compose. Qed.

Lemma concat_slices_from l s m :
  concat ((λ k, take sz (drop (k * sz) l)) <$> seq s m)
  = take (m * sz) (drop (s * sz) l).
Proof.
  revert s. induction m as [|m IH]; intros s; [done|].
  rewrite <- cons_seq, fmap_cons. simpl concat. rewrite IH.
  replace (S m * sz) with (sz + m * sz) by lia.
  rewrite <- (take_take_drop (drop (s * sz) l) sz (m * sz)), drop_drop.
  do 3 f_equal. lia.
Qed.

(** The slices, put back together, are the list. *)
Lemma concat_slices l : concat (slices sz l) = l.
Proof.
  rewrite slices_seq, concat_slices_from. simpl. rewrite drop_0.
  apply take_ge. apply div_up_bounds.
Qed.

Lemma length_slices l : length (slices sz l) = (length l + sz - 1) / sz.
Proof. by rewrite slices_seq, length_fmap, length_seq. Qed.

Lemma slices_nil : slices sz [] = [].
Proof.
  rewrite slices_seq. simpl length.
  rewrite Nat.div_small by lia. done.
Qed.

(** Every slice is full, except possibly the last, which is not empty. *)
Lemma lookup_slices l i c :
  slices sz l !! i = Some c →
  0 < length c ≤ sz ∧ (S i < length (slices sz l) → length c = sz).
Proof.
  rewrite length_slices, slices_seq, list_lookup_fmap.
  destruct (seq 0 _ !! i) as [k|] eqn:Hk; [|done].
  apply lookup_seq in Hk as [-> Hlt]. simpl. intros [= <-].
  rewrite length_take, length_drop.
  destruct (div_up_bounds (length l)) as [Hup Hlow].
  set (m := (length l + sz - 1) / sz) in *.
  assert (0 < length l) as Hpos.
  { destruct (length l); [|lia]. exfalso.
    assert (m = 0); [|lia]. subst m. apply Nat.div_small. lia. }
  destruct (Hlow Hpos) as [Hlast _]. nia.
Qed.

Lemma slices_nonempty l : l ≠ [] → slices sz l ≠ [].
Proof.
  intros Hl Hs. apply Hl. by rewrite <- (concat_slices l), Hs.
Qed.
End slices_facts.

(** * Facts about a release *)

Lemma BATCH_SZ_pos : (0 < BATCH_SZ)%nat.
Proof. unfold BATCH_SZ. lia. Qed.

Section release_facts.
Implicit Types (p : FollowNetPipe) (h : gset string) (l cands : list string).

Lemma set_update_uids h l : set_update h (Uid <$> l) = Some (h ∪ list_to_set l).
Proof.
  revert h. induction l as [|u l IH]; intros h.
  - simpl. by rewrite union_empty_r_L.
  - rewrite fmap_cons. simpl. rewrite IH. by rewrite (assoc_L (∪)).
Qed.

Lemma flatten_batches (ls : list (list string)) :
  flatten (Batch <$> ls) = Uid <$> concat ls.
Proof.
  unfold flatten. induction ls as [|b ls IH]; [done|].
  rewrite fmap_cons, bind_cons, IH. simpl. by rewrite fmap_app.
Qed.

Lemma released_ids_uids l : released_ids (Uid <$> l) = l.
Proof.
  unfold released_ids. induction l as [|u l IH]; [done|].
  rewrite fmap_cons, bind_cons, IH. done.
Qed.

Lemma released_ids_batches (ls : list (list string)) :
  released_ids (Batch <$> ls) = concat ls.
Proof.
  unfold released_ids. induction ls as [|b ls IH]; [done|].
  rewrite fmap_cons, bind_cons, IH. done.
Qed.

Lemma batchify_flush cands : batchify cands true = Batch <$> slices BATCH_SZ cands.
Proof. done. Qed.

Lemma batchify_stream cands :
  batchify cands false
  = Uid <$> (if (BATCH_SZ <? length cands)%nat then take BATCH_SZ cands else []).
Proof. unfold batchify. by destruct (BATCH_SZ <? length cands)%nat. Qed.

Lemma released_ids_flush cands : released_ids (batchify cands true) = cands.
Proof.
  rewrite batchify_flush, released_ids_batches.
  apply concat_slices, BATCH_SZ_pos.
Qed.

Lemma released_ids_stream cands :
  released_ids (batchify cands false)
  = if (BATCH_SZ <? length cands)%nat then take BATCH_SZ cands else [].
Proof. by rewrite batchify_stream, released_ids_uids. Qed.

(** No enumeration makes [batch_history.update] raise: the set receives
    exactly the ids carried by the returned list. *)
Lemma release_eq cands remainder p :
  release cands remainder p
  = Some (batchify cands remainder,
          MkFollowNetPipe (folnet p) (max_followings p) (num_collected p)
            (num_skipped p)
            (batch_history p ∪ list_to_set (released_ids (batchify cands remainder)))).
Proof.
  unfold release. destruct remainder.
  - rewrite released_ids_flush, batchify_flush. rewrite andb_true_l.
    destruct cands as [|c cands].
    + rewrite slices_nil by apply BATCH_SZ_pos. simpl.
      by rewrite union_empty_r_L.
    + pose proof (slices_nonempty BATCH_SZ BATCH_SZ_pos (c :: cands)) as Hne.
      pose proof (concat_slices BATCH_SZ BATCH_SZ_pos (c :: cands)) as Hcat.
      destruct (slices BATCH_SZ (c :: cands)) as [|b bs] eqn:Hs;
        [by exfalso; apply Hne|].
      rewrite fmap_cons. cbn [head_is_list].
      rewrite <- fmap_cons, flatten_batches, Hcat, set_update_uids. done.
  - rewrite released_ids_stream, batchify_stream. rewrite andb_false_l.
    by rewrite set_update_uids.
Qed.

Lemma new_candidates_eq p :
  new_candidates p
  = (dom (mutual (folnet p)) ∖ batch_history p,
     MkFollowNetPipe (followings_counter (folnet p)).2 (max_followings p)
       (num_collected p) (num_skipped p) (batch_history p)).
Proof. done. Qed.

Lemma unreleased_eq p : unreleased p = dom (mutual (folnet p)) ∖ batch_history p.
Proof. done. Qed.

(** What a call of [new_candidate_batches] can return, and the pipe it
    leaves. *)
Lemma new_candidate_batches_inv remainder p batches p' :
  new_candidate_batches remainder p batches p' →
  ∃ cands,
    cands ≡ₚ elements (unreleased p) ∧
    batches = batchify cands remainder ∧
    p' = MkFollowNetPipe (followings_counter (folnet p)).2 (max_followings p)
           (num_collected p) (num_skipped p)
           (batch_history p ∪ list_to_set (released_ids batches)).
Proof.
  intros [cands b q Hperm Hrel]. exists cands. split; [done|].
  rewrite release_eq, new_candidates_eq in Hrel. simpl in Hrel.
  by injection Hrel as <- <-.
Qed.

Lemma new_candidate_batches_intro remainder p cands :
  cands ≡ₚ elements (unreleased p) →
  new_candidate_batches remainder p (batchify cands remainder)
    (MkFollowNetPipe (followings_counter (folnet p)).2 (max_followings p)
       (num_collected p) (num_skipped p)
       (batch_history p ∪ list_to_set (released_ids (batchify cands remainder)))).
Proof.
  intros Hperm. econstructor; [exact Hperm|].
  by rewrite release_eq, new_candidates_eq.
Qed.

(** The call always returns. *)
Lemma new_candidate_batches_total remainder p :
  ∃ batches p', new_candidate_batches remainder p batches p'.
Proof.
  eexists _, _. by apply (new_candidate_batches_intro _ _ (elements (unreleased p))).
Qed.

Lemma new_candidate_batches_exec_sound remainder p batches p' :
  new_candidate_batches_exec remainder p = Some (batches, p') →
  new_candidate_batches remainder p batches p'.
Proof. intros H. by econstructor. Qed.

(** An enumeration of a set lists every element once. *)
Lemma listing_facts cands (X : gset string) :
  cands ≡ₚ elements X →
  NoDup cands ∧ list_to_set cands = X ∧ length cands = size X.
Proof.
  intros Hp. split_and!.
  - rewrite Hp. apply NoDup_elements.
  - apply set_eq. intros x. by rewrite elem_of_list_to_set, Hp, elem_of_elements.
  - by rewrite Hp.
Qed.
End release_facts.

(** * Facts about one ingestion and about runs *)

Section pipe_facts.
Implicit Types (p : FollowNetPipe) (reply : following_reply).

Lemma account_accepted total foll_data p :
  total ≤ max_followings p →
  account (Reply total foll_data) p
  = MkFollowNetPipe (record (to_id <$> foll_data) (folnet p)) (max_followings p)
      (num_collected p + 1) (num_skipped p) (batch_history p).
Proof. intros H. simpl. by rewrite bool_decide_eq_true_2. Qed.

Lemma account_rejected total foll_data p :
  max_followings p < total →
  account (Reply total foll_data) p
  = MkFollowNetPipe (folnet p) (max_followings p) (num_collected p)
      (num_skipped p + 1) (batch_history p).
Proof. intros H. simpl. rewrite bool_decide_eq_false_2; [done|lia]. Qed.

Lemma account_falsy reply p : truthy reply = false → account reply p = p.
Proof. by destruct reply. Qed.

(** The accounting step as one recorded list of ids. *)
Lemma account_counts reply p :
  counts (folnet (account reply p))
  = counts (record (accepted_ids (max_followings p) [reply]) (folnet p)).
Proof.
  assert (counts (folnet p) = counts (record [] (folnet p))) as Hnil.
  { rewrite counts_record. unfold Counter.pop. simpl.
    symmetry. apply delete_id, counts_streamer. }
  unfold accepted_ids. rewrite bind_cons. simpl. rewrite app_nil_r.
  destruct reply as [| |total foll_data]; simpl; try done.
  by destruct (bool_decide (total ≤ max_followings p)).
Qed.

Lemma account_fixed reply p :
  streamer_id (folnet (account reply p)) = streamer_id (folnet p) ∧
  min_mutual (folnet (account reply p)) = min_mutual (folnet p) ∧
  max_followings (account reply p) = max_followings p ∧
  batch_history (account reply p) = batch_history p.
Proof.
  destruct reply as [| |total foll_data]; simpl; try done.
  by destruct (bool_decide (total ≤ max_followings p)).
Qed.

Lemma account_mutual reply p :
  dom (mutual (folnet p)) ⊆ dom (mutual (folnet (account reply p))).
Proof.
  destruct reply as [| |total foll_data]; simpl; try done.
  destruct (bool_decide (total ≤ max_followings p)); simpl; [|done].
  apply dom_mutual_record.
Qed.

Lemma account_counters reply p :
  num_collected (account reply p)
  = num_collected p + (if accepted (max_followings p) reply then 1 else 0) ∧
  num_skipped (account reply p)
  = num_skipped p + (if rejected (max_followings p) reply then 1 else 0).
Proof.
  destruct reply as [| |total foll_data]; simpl; try lia.
  destruct (bool_decide (total ≤ max_followings p)); simpl; lia.
Qed.

(** The effect of one call of [new_candidate_batches]. *)
Lemma release_effect remainder p batches p' :
  new_candidate_batches remainder p batches p' →
  counts (folnet p') = counts (folnet p) ∧
  mutual (folnet p') = mutual (folnet p) ∧
  streamer_id (folnet p') = streamer_id (folnet p) ∧
  min_mutual (folnet p') = min_mutual (folnet p) ∧
  max_followings p' = max_followings p ∧
  num_collected p' = num_collected p ∧
  num_skipped p' = num_skipped p ∧
  batch_history p' = batch_history p ∪ list_to_set (released_ids batches) ∧
  list_to_set (released_ids batches) ⊆ unreleased p.
Proof.
  intros (cands & Hperm & Hb & ->)%new_candidate_batches_inv.
  cbn [folnet max_followings num_collected num_skipped batch_history].
  rewrite counts_popped, mutual_popped. split_and!; try done.
  destruct (listing_facts _ _ Hperm) as (_ & Hset & _).
  rewrite Hb. destruct remainder.
  - by rewrite released_ids_flush, Hset.
  - rewrite released_ids_stream. destruct (BATCH_SZ <? length cands)%nat.
    + rewrite <- Hset. intros x. rewrite !elem_of_list_to_set.
      rewrite elem_of_take. intros (i & Hi & _). by eapply list_elem_of_lookup_2.
    + simpl. apply empty_subseteq.
Qed.

(** After a flush every qualifying candidate is released. *)
Lemma flush_effect p batches p' :
  new_candidate_batches true p batches p' →
  batch_history p' = batch_history p ∪ dom (mutual (folnet p)) ∧
  mutual (folnet p') = mutual (folnet p) ∧
  list_to_set (released_ids batches) = unreleased p.
Proof.
  intros Hcall.
  pose proof (release_effect _ _ _ _ Hcall)
    as (_ & Hm & _ & _ & _ & _ & _ & Hh & _).
  apply new_candidate_batches_inv in Hcall as (cands & Hperm & Hb & _).
  destruct (listing_facts _ _ Hperm) as (_ & Hset & _).
  rewrite Hb, released_ids_flush, Hset in Hh.
  rewrite Hb, released_ids_flush, Hset. split_and!; [|done|done].
  rewrite Hh, unreleased_eq. apply set_eq. intros x.
  rewrite !elem_of_union, elem_of_difference.
  destruct (decide (x ∈ batch_history p)); tauto.
Qed.

Lemma ingest_all_total replies p : ∃ out p', ingest_all replies p out p'.
Proof.
  revert p. induction replies as [|reply replies IH]; intros p.
  - eexists _, _. constructor.
  - destruct (new_candidate_batches_total false (account reply p)) as (b & p1 & H1).
    destruct (IH p1) as (out & p2 & H2).
    eexists _, _. by econstructor.
Qed.

Lemma ingest_all_exec_sound replies p out p' :
  ingest_all_exec replies p = Some (out, p') → ingest_all replies p out p'.
Proof.
  revert p out p'. induction replies as [|reply replies IH]; intros p out p'; simpl.
  - intros [= <- <-]. constructor.
  - destruct (update_followings_exec reply false p) as [[b p1]|] eqn:H1; [|done].
    simpl. destruct (ingest_all_exec replies p1) as [[o p2]|] eqn:H2; [|done].
    simpl. intros [= <- <-]. econstructor; [|by apply IH].
    by apply new_candidate_batches_exec_sound.
Qed.

(** What a run of ingestions leaves behind. *)
Lemma ingest_all_effect replies p out p' :
  ingest_all replies p out p' →
  streamer_id (folnet p') = streamer_id (folnet p) ∧
  min_mutual (folnet p') = min_mutual (folnet p) ∧
  max_followings p' = max_followings p ∧
  counts (folnet p')
  = counts (record (accepted_ids (max_followings p) replies) (folnet p)) ∧
  dom (mutual (folnet p)) ⊆ dom (mutual (folnet p')) ∧
  batch_history p' = batch_history p ∪ list_to_set (out ≫= released_ids) ∧
  list_to_set (out ≫= released_ids) ⊆ dom (mutual (folnet p')) ∖ batch_history p.
Proof.
  induction 1 as [p|reply replies p b p1 out p2 Hstep Hrest IH].
  - split_and!; try done.
    + rewrite counts_record. unfold Counter.pop. simpl.
      symmetry. apply delete_id, counts_streamer.
    + simpl. by rewrite union_empty_r_L.
  - destruct IH as (Hs & Hm & Hx & Hc & Hd & Hh & Hr).
    apply release_effect in Hstep
      as (Hc1 & Hm1 & Hs1 & Hmm1 & Hx1 & _ & _ & Hh1 & Hr1).
    destruct (account_fixed reply p) as (Hs0 & Hmm0 & Hx0 & Hh0).
    rewrite unreleased_eq, Hh0 in Hr1. rewrite Hh0 in Hh1.
    assert (dom (mutual (folnet p)) ⊆ dom (mutual (folnet p1))) as Hd1.
    { rewrite Hm1. apply account_mutual. }
    rewrite <- Hm1 in Hr1.
    split_and!.
    + congruence.
    + congruence.
    + congruence.
    + rewrite Hc, Hx1, Hx0.
      change (reply :: replies) with ([reply] ++ replies).
      unfold accepted_ids at 2. rewrite bind_app.
      fold (accepted_ids (max_followings p) [reply]).
      fold (accepted_ids (max_followings p) replies).
      rewrite <- counts_record_record, !counts_record, !streamer_id_record.
      by rewrite Hs1, Hs0, Hc1, account_counts, counts_record.
    + by transitivity (dom (mutual (folnet p1))).
    + rewrite bind_cons, list_to_set_app_L, Hh, Hh1. clear. set_solver.
    + rewrite bind_cons, list_to_set_app_L. clear -Hr Hr1 Hh1 Hd. set_solver.
Qed.

Lemma ingest_all_counters replies p out p' :
  ingest_all replies p out p' →
  num_collected p'
  = num_collected p
    + Z.of_nat (length (filter (λ r, accepted (max_followings p) r) replies)) ∧
  num_skipped p'
  = num_skipped p
    + Z.of_nat (length (filter (λ r, rejected (max_followings p) r) replies)).
Proof.
  induction 1 as [p|reply replies p b p1 out p2 Hstep Hrest IH].
  - simpl. lia.
  - apply release_effect in Hstep as (_ & _ & _ & _ & Hx1 & Hnc & Hns & _).
    destruct (account_fixed reply p) as (_ & _ & Hx0 & _).
    destruct (account_counters reply p) as [Ha Hr].
    rewrite Hx1, Hx0 in IH. destruct IH as [-> ->].
    rewrite Hnc, Hns, Ha, Hr, !filter_cons.
    destruct (accepted (max_followings p) reply),
             (rejected (max_followings p) reply); simpl length; lia.
Qed.
End pipe_facts.

(** * Facts used by the accounting claim *)

Lemma occurrences_NoDup k ids : NoDup ids → k ∈ ids → occurrences k ids = 1%nat.
Proof.
  induction 1 as [|i ids Hni Hnd IH]; [by rewrite elem_of_nil|].
  rewrite elem_of_cons, occurrences_cons. intros [->|Hin].
  - rewrite decide_True by done. by rewrite occurrences_notin.
  - rewrite decide_False; [auto|]. by intros ->.
Qed.

(** Every truthy reply is either accepted or rejected, never both. *)
Lemma accepted_rejected_truthy max replies :
  (length (filter (λ r, accepted max r) replies)
   + length (filter (λ r, rejected max r) replies)
   = length (filter (λ r, truthy r) replies))%nat.
Proof.
  induction replies as [|r replies IH]; [done|].
  rewrite !filter_cons.
  destruct r as [| |total foll_data]; simpl; try done.
  destruct (bool_decide (total ≤ max)); simpl; lia.
Qed.

(** The counts after one ingestion of a truthy reply. *)
Lemma update_followings_counts reply all_batches p batches p' :
  update_followings reply all_batches p batches p' →
  counts (folnet p')
  = counts (record (accepted_ids (max_followings p) [reply]) (folnet p)).
Proof.
  intros (Hc & _)%release_effect. by rewrite Hc, account_counts.
Qed.

(** * Facts about a whole crawl *)

Lemma accepted_ids_Permutation max replies1 replies2 :
  replies1 ≡ₚ replies2 → accepted_ids max replies1 ≡ₚ accepted_ids max replies2.
Proof. unfold accepted_ids. by intros ->. Qed.

Lemma counts_record_Permutation ids1 ids2 fn :
  ids1 ≡ₚ ids2 → counts (record ids1 fn) = counts (record ids2 fn).
Proof. intros Hp. by rewrite !counts_record, (update_Permutation _ _ _ Hp). Qed.

Lemma mutual_ext fn1 fn2 :
  counts fn1 = counts fn2 → min_mutual fn1 = min_mutual fn2 →
  mutual fn1 = mutual fn2.
Proof. intros Hc Hm. by rewrite !mutual_eq, Hc, Hm. Qed.

Lemma crawl_total replies p :
  ∃ out remaining_batches p', crawl replies p out remaining_batches p'.
Proof.
  destruct (ingest_all_total replies p) as (out & p1 & H1).
  destruct (new_candidate_batches_total true p1) as (b & p2 & H2).
  exists out, b, p2. by econstructor.
Qed.

(** The state a crawl ends in, in terms of its input only. *)
Lemma crawl_effect replies p out remaining_batches p' :
  crawl replies p out remaining_batches p' →
  counts (folnet p')
  = counts (record (accepted_ids (max_followings p) replies) (folnet p)) ∧
  min_mutual (folnet p') = min_mutual (folnet p) ∧
  batch_history p' = batch_history p ∪ dom (mutual (folnet p')) ∧
  list_to_set ((out ≫= released_ids) ++ released_ids remaining_batches)
  = dom (mutual (folnet p')) ∖ batch_history p.
Proof.
  intros [out' p1 b p2 Hingest Hflush].
  apply ingest_all_effect in Hingest as (_ & Hmm & _ & Hc & _ & Hh & Hr).
  pose proof (release_effect _ _ _ _ Hflush) as (Hc2 & _ & _ & Hmm2 & _).
  apply flush_effect in Hflush as (Hh2 & Hm2 & Hrel).
  rewrite unreleased_eq in Hrel.
  rewrite list_to_set_app_L, Hrel, Hm2, Hc2, Hmm2, Hh2.
  revert Hh Hr.
  generalize (list_to_set (out' ≫= released_ids) : gset string).
  generalize (dom (mutual (folnet p1))). generalize (batch_history p1).
  generalize (batch_history p). intros H0 H1 D A -> Hr.
  split_and!; [done|done| |].
  - set_solver.
  - apply set_eq. intros x. destruct (decide (x ∈ A)); set_solver.
Qed.

(** The chunks put on [q_out] carry every id the streaming calls released:
    the results that are not forwarded are the empty ones. *)
Lemma forwarded_released_ids (out : list (list item)) :
  forwarded out ≫= released_ids = out ≫= released_ids.
Proof.
  unfold forwarded. induction out as [|b out IH]; [done|].
  rewrite filter_cons. destruct (decide (b ≠ [])) as [Hne|Heq].
  - by rewrite !bind_cons, IH.
  - apply dec_stable in Heq as ->. by rewrite bind_cons, IH.
Qed.

Lemma crawl_exec_sound replies p out remaining_batches p' :
  crawl_exec replies p = Some (out, remaining_batches, p') →
  crawl replies p out remaining_batches p'.
Proof.
  unfold crawl_exec.
  destruct (ingest_all_exec replies p) as [[o p1]|] eqn:H1; [|done].
  cbn -[new_candidate_batches_exec].
  destruct (new_candidate_batches_exec true p1) as [[b p2]|] eqn:H2; [|done].
  cbn. intros [= <- <- <-]. econstructor.
  - by apply ingest_all_exec_sound.
  - by apply new_candidate_batches_exec_sound.
Qed.

Lemma crawl_counters replies p out remaining_batches p' :
  crawl replies p out remaining_batches p' →
  num_collected p'
  = num_collected p
    + Z.of_nat (length (filter (λ r, accepted (max_followings p) r) replies)) ∧
  num_skipped p'
  = num_skipped p
    + Z.of_nat (length (filter (λ r, rejected (max_followings p) r) replies)).
Proof.
  intros [out' p1 b p2 [Hnc Hns]%ingest_all_counters Hflush].
  apply release_effect in Hflush as (_ & _ & _ & _ & _ & -> & -> & _). done.
Qed.

(** * Facts about the process *)

Section process_facts.
Implicit Types (P : Process) (p : FollowNetPipe).

Lemma load_batch_history self P p :
  load self P = Some p → batch_history p = class_batch_history P.
Proof.
  unfold load. destruct (pipe_heap P !! self) as [o|]; [|done]. simpl.
  destruct (folnet_heap P !! obj_folnet o); [|done]. simpl. by intros [= <-].
Qed.

Lemma store_batch_history self P p p' :
  load self P = Some p → class_batch_history (store self p' P) = batch_history p'.
Proof.
  unfold load, store. destruct (pipe_heap P !! self) as [o|]; [|done]. done.
Qed.

Lemma call_new_candidate_batches_history self remainder P batches P' :
  call_new_candidate_batches self remainder P batches P' →
  class_batch_history P'
  = class_batch_history P ∪ list_to_set (released_ids batches).
Proof.
  intros (p & p' & Hload & Hcall & ->).
  rewrite (store_batch_history _ _ _ _ Hload).
  apply release_effect in Hcall as (_ & _ & _ & _ & _ & _ & _ & -> & _).
  by rewrite (load_batch_history _ _ _ Hload).
Qed.

Lemma call_update_followings_history self reply all_batches P batches P' :
  call_update_followings self reply all_batches P batches P' →
  class_batch_history P'
  = class_batch_history P ∪ list_to_set (released_ids batches).
Proof.
  intros (p & p' & Hload & Hcall & ->).
  rewrite (store_batch_history _ _ _ _ Hload).
  apply release_effect in Hcall as (_ & _ & _ & _ & _ & _ & _ & -> & _).
  destruct (account_fixed reply p) as (_ & _ & _ & ->).
  by rewrite (load_batch_history _ _ _ Hload).
Qed.

(** Nothing the process does removes an id from the class-level set. *)
Lemma process_step_history P P' :
  process_step P P' → class_batch_history P ⊆ class_batch_history P'.
Proof.
  destruct 1 as [sid mm P|fn_ref max P|self r P b P' H|self reply ab P b P' H].
  - done.
  - done.
  - rewrite (call_new_candidate_batches_history _ _ _ _ _ H). set_solver.
  - rewrite (call_update_followings_history _ _ _ _ _ _ H). set_solver.
Qed.

Lemma process_steps_history P P' :
  rtc process_step P P' → class_batch_history P ⊆ class_batch_history P'.
Proof.
  induction 1 as [P|P P1 P2 Hstep _ IH]; [done|].
  apply process_step_history in Hstep. set_solver.
Qed.

Lemma call_new_candidate_batches_exec_sound self remainder P batches P' :
  call_new_candidate_batches_exec self remainder P = Some (batches, P') →
  call_new_candidate_batches self remainder P batches P'.
Proof.
  unfold call_new_candidate_batches_exec.
  destruct (load self P) as [p|] eqn:Hload; [|done]. simpl.
  destruct (new_candidate_batches_exec remainder p) as [[b p']|] eqn:He; [|done].
  simpl. intros [= <- <-]. exists p, p'.
  split_and!; [done| |done]. by apply new_candidate_batches_exec_sound.
Qed.

Lemma call_update_followings_exec_sound self reply all_batches P batches P' :
  call_update_followings_exec self reply all_batches P = Some (batches, P') →
  call_update_followings self reply all_batches P batches P'.
Proof.
  unfold call_update_followings_exec.
  destruct (load self P) as [p|] eqn:Hload; [|done]. simpl.
  destruct (update_followings_exec reply all_batches p) as [[b p']|] eqn:He; [|done].
  simpl. intros [= <- <-]. exists p, p'.
  split_and!; [done| |done]. by apply new_candidate_batches_exec_sound.
Qed.

(** The two-pipe process is one the classes can really be driven into. *)
Lemma second_crawl_reachable :
  rtc process_step process_start second_crawl ∧
  load 1%nat second_crawl = Some second_pipe.
Proof.
  split; [|vm_compute; reflexivity].
  eapply rtc_l; [apply (step_new_folnet "S" 1)|].
  eapply rtc_l; [apply (step_new_pipe 0%nat 150)|].
  eapply rtc_l.
  { eapply (step_update 0%nat (Reply 2 [MkFollowing "S"; MkFollowing "A"]) false).
    apply call_update_followings_exec_sound. vm_compute. reflexivity. }
  eapply rtc_l.
  { eapply (step_release 0%nat true).
    apply call_new_candidate_batches_exec_sound. vm_compute. reflexivity. }
  eapply rtc_l; [apply (step_new_folnet "T" 1)|].
  eapply rtc_l; [apply (step_new_pipe 1%nat 150)|].
  vm_compute. apply rtc_refl.
Qed.
End process_facts.

(** * Facts used by the further properties *)

Lemma take_batch_nonempty (cands : list string) :
  (BATCH_SZ < length cands)%nat → Uid <$> take BATCH_SZ cands ≠ [].
Proof.
  intros Hlt Hnil%fmap_nil_inv%(f_equal length). rewrite length_take in Hnil.
  change (length (@nil string)) with 0%nat in Hnil. unfold BATCH_SZ in *. lia.
Qed.

Lemma release_NoDup remainder p batches p' :
  new_candidate_batches remainder p batches p' → NoDup (released_ids batches).
Proof.
  intros (cands & Hperm & -> & _)%new_candidate_batches_inv.
  destruct (listing_facts _ _ Hperm) as (Hnd & _ & _). destruct remainder.
  - by rewrite released_ids_flush.
  - rewrite released_ids_stream. destruct (BATCH_SZ <? length cands)%nat.
    + eapply sublist_NoDup; [done|apply sublist_take].
    + constructor.
Qed.

(** No id is released twice while replies are ingested. *)
Lemma ingest_all_NoDup replies p out p' :
  ingest_all replies p out p' → NoDup (out ≫= released_ids).
Proof.
  induction 1 as [p|reply replies p b p1 out p2 Hstep Hrest IH]; [constructor|].
  rewrite bind_cons. apply NoDup_app. split_and!; [|clear IH|done].
  - by eapply release_NoDup.
  - apply release_effect in Hstep as (_ & _ & _ & _ & _ & _ & _ & Hh1 & _).
    apply ingest_all_effect in Hrest as (_ & _ & _ & _ & _ & _ & Hr).
    intros x Hx Hx'. apply (elem_of_list_to_set (C := gset string)) in Hx, Hx'.
    apply Hr in Hx'. rewrite Hh1 in Hx'. set_solver.
Qed.

Lemma counts_record_all reports fn :
  counts (record_all reports fn) = counts (record (concat reports) fn) ∧
  streamer_id (record_all reports fn) = streamer_id fn ∧
  min_mutual (record_all reports fn) = min_mutual fn.
Proof.
  revert fn. induction reports as [|ids reports IH]; intros fn.
  - split_and!; [|done|done]. rewrite counts_record. unfold Counter.pop. simpl.
    symmetry. apply delete_id, counts_streamer.
  - destruct (IH (record ids fn)) as (Hc & Hs & Hm). split_and!; [|done|done].
    change (record_all (ids :: reports) fn) with (record_all reports (record ids fn)).
    by rewrite Hc, counts_record_record.
Qed.

(** The counts of a fresh aggregator after recording [ids]. *)
Lemma lookup_counts_record_init sid mm ids k :
  counts (record ids (FollowerNetwork_init sid mm)) !! k
  = if decide (k ≠ sid ∧ k ∈ ids)
    then Some (Z.of_nat (occurrences k ids)) else None.
Proof.
  rewrite counts_record. unfold Counter.pop. simpl streamer_id.
  destruct (decide (k = sid)) as [->|Hne].
  - rewrite lookup_delete_eq. rewrite decide_False; [done|]. by intros [? _].
  - rewrite lookup_delete_ne by done. rewrite lookup_update.
    assert (counts (FollowerNetwork_init sid mm) !! k = None) as Hk.
    { rewrite counts_eq. simpl. by rewrite delete_empty. }
    unfold Counter.get. rewrite Hk. simpl.
    destruct (decide (k ∈ ids)) as [Hin|Hni].
    + rewrite decide_True by done. f_equal.
    + rewrite decide_False; [done|]. by intros [_ ?].
Qed.

Lemma crawl_fixed replies p out remaining_batches p' :
  crawl replies p out remaining_batches p' →
  streamer_id (folnet p') = streamer_id (folnet p) ∧
  min_mutual (folnet p') = min_mutual (folnet p) ∧
  max_followings p' = max_followings p.
Proof.
  intros [out' p1 b p2 Hingest Hflush].
  apply ingest_all_effect in Hingest as (Hs & Hm & Hx & _).
  apply release_effect in Hflush as (_ & _ & Hs2 & Hm2 & Hx2 & _).
  split_and!; congruence.
Qed.

Lemma get_counts_record ids fn k :
  k ≠ streamer_id fn →
  Counter.get (counts (record ids fn)) k
  = Counter.get (counts fn) k + Z.of_nat (occurrences k ids).
Proof.
  intros Hne. rewrite counts_record. unfold Counter.pop, Counter.get at 1.
  rewrite lookup_delete_ne by done. apply get_update.
Qed.

Lemma get_counts_streamer fn : Counter.get (counts fn) (streamer_id fn) = 0.
Proof. unfold Counter.get. by rewrite counts_streamer. Qed.

(** * Facts about the worker pool *)

Lemma in_flight_cons t ws :
  in_flight (t :: ws)
  = if decide (t ≠ AwaitGet) then S (in_flight ws) else in_flight ws.
Proof. unfold in_flight. rewrite filter_cons. by destruct (decide (t ≠ AwaitGet)). Qed.

Lemma in_flight_start n : in_flight (replicate n AwaitGet) = 0%nat.
Proof.
  induction n as [|n IH]; [done|]. simpl replicate.
  rewrite in_flight_cons, decide_False; [done|]. by intros H.
Qed.

Lemma in_flight_fetch ws (w : nat) x :
  ws !! w = Some AwaitGet →
  in_flight (<[w := AwaitFetch x]> ws) = S (in_flight ws).
Proof.
  revert w. induction ws as [|t ws IH]; intros [|w] Hw; try done.
  - injection Hw as ->. simpl. rewrite !in_flight_cons.
    rewrite decide_True by done. rewrite decide_False; [done|]. by intros H.
  - simpl. rewrite !in_flight_cons, (IH w Hw). by destruct (decide (t ≠ AwaitGet)).
Qed.

Lemma in_flight_fetched ws (w : nat) x :
  ws !! w = Some (AwaitFetch x) →
  S (in_flight (<[w := AwaitGet]> ws)) = in_flight ws.
Proof.
  revert w. induction ws as [|t ws IH]; intros [|w] Hw; try done.
  - injection Hw as ->. simpl. rewrite !in_flight_cons.
    rewrite (decide_True (P := AwaitFetch x ≠ AwaitGet)) by done.
    rewrite decide_False; [done|]. by intros H.
  - simpl. rewrite !in_flight_cons, <- (IH w Hw).
    by destruct (decide (t ≠ AwaitGet)).
Qed.

Lemma in_flight_none ws : in_flight ws = 0%nat → Forall (λ t, t = AwaitGet) ws.
Proof.
  induction ws as [|t ws IH]; [by constructor|].
  rewrite in_flight_cons. destruct (decide (t ≠ AwaitGet)) as [Hne|Heq]; [done|].
  intros H0. constructor; [|by apply IH]. by apply dec_stable in Heq.
Qed.

Lemma ingest_all_snoc replies p out p1 reply batch p2 :
  ingest_all replies p out p1 →
  update_followings reply false p1 batch p2 →
  ingest_all (replies ++ [reply]) p (out ++ [batch]) p2.
Proof.
  induction 1 as [p|r rs p b q out q' Hstep Hrest IH]; intros Hlast.
  - simpl. econstructor; [done|constructor].
  - simpl. econstructor; [done|]. by apply IH.
Qed.

Lemma forwarded_cons b out :
  forwarded (b :: out) = match b with [] => forwarded out | _ => b :: forwarded out end.
Proof.
  unfold forwarded. rewrite filter_cons. destruct b as [|i b].
  - rewrite decide_False; [done|]. by intros H.
  - by rewrite decide_True.
Qed.

(** What the streaming results leave on [q_out]. *)
Lemma out_items_forward q_out0 (out : list (list item)) :
  out_items (foldl forward q_out0 out)
  = out_items q_out0
    ++ match q_out0 with Some _ => Streamed <$> forwarded out | None => [] end.
Proof.
  revert q_out0. induction out as [|b out IH]; intros q_out0.
  - simpl. destruct q_out0; by rewrite app_nil_r.
  - simpl foldl. rewrite IH, forwarded_cons.
    destruct q_out0 as [q0|], b as [|i b]; try done.
    simpl. by rewrite <- app_assoc.
Qed.

Lemma out_items_forward_all q_out0 (remaining_batches : list item) :
  out_items (forward_all q_out0 remaining_batches)
  = out_items q_out0
    ++ match q_out0 with Some _ => Flushed <$> remaining_batches | None => [] end.
Proof.
  destruct q_out0 as [q0|]; [|done]. simpl.
  revert q0. induction remaining_batches as [|b bs IH]; intros q0.
  - simpl. by rewrite app_nil_r.
  - simpl. rewrite IH. simpl. by rewrite <- app_assoc.
Qed.

(** What every reachable pool state satisfies: the queue's count of
    unfinished tasks is the number of queued items plus the number of
    workers in the middle of a fetch; no worker is ever added or lost; and
    the pipe and [q_out] are what ingesting some list of replies one after
    the other gives. *)
Lemma pool_reachable_inv q_out0 n self s :
  pool_reachable q_out0 n self s →
  unfinished_tasks (q_foll_ids s)
  = (length (queue_items (q_foll_ids s)) + in_flight (t_followings s))%nat ∧
  length (t_followings s) = n ∧
  ∃ replies out,
    ingest_all replies self out (self_pipe s) ∧
    q_out s = foldl forward q_out0 out.
Proof.
  unfold pool_reachable. revert s.
  apply rtc_ind_r; [|intros s s' Hreach Hstep IH].
  - simpl. rewrite in_flight_start, length_replicate.
    split_and!; [done|done|]. exists [], []. split; [constructor|done].
  - destruct IH as (Hq & Hn & replies & out & Hing & Hout).
    unfold pool_next in Hstep. remember (Running s') as o eqn:Ho.
    destruct Hstep as [x s Hp | s Hp | w s rest Hw Hitems
                       | w s x rest Hw Hitems Hne
                       | w s x reply b p' Hw Hupd].
    + injection Ho as <-. simpl. rewrite length_app. simpl.
      split_and!; [lia|done|]. by exists replies, out.
    + injection Ho as <-. simpl. split_and!; [done|done|]. by exists replies, out.
    + rewrite Hitems in Hq. simpl in Hq.
      unfold task_done in Ho. simpl in Ho.
      destruct (unfinished_tasks (q_foll_ids s)) as [|u]; [done|].
      injection Ho as <-. simpl.
      split_and!; [lia|done|]. by exists replies, out.
    + injection Ho as <-. simpl. rewrite Hitems in Hq. simpl in Hq.
      rewrite (in_flight_fetch _ _ _ Hw), length_insert.
      split_and!; [lia|done|]. by exists replies, out.
    + unfold task_done in Ho.
      pose proof (in_flight_fetched _ _ _ Hw) as Hfl.
      destruct (unfinished_tasks (q_foll_ids s)) as [|u] eqn:Hu; [lia|].
      injection Ho as <-. simpl. rewrite length_insert.
      split_and!; [lia|done|].
      exists (replies ++ [reply]), (out ++ [b]).
      split; [by eapply ingest_all_snoc|].
      by rewrite foldl_app, <- Hout.
Qed.

(** Every streaming result that is not empty is a flat list of 100 ids. *)
Lemma ingest_all_streamed replies p out p' :
  ingest_all replies p out p' →
  Forall (λ b, ∃ ids, b = Uid <$> ids ∧ length ids = 100%nat) (forwarded out).
Proof.
  induction 1 as [p|reply replies p b p1 out p2 Hstep Hrest IH]; [constructor|].
  unfold forwarded in *. rewrite filter_cons.
  destruct (decide (b ≠ [])) as [Hne|_]; [|done].
  constructor; [|done].
  apply new_candidate_batches_inv in Hstep as (cands & _ & Hb & _).
  rewrite batchify_stream in Hb.
  destruct (Nat.ltb_spec BATCH_SZ (length cands)) as [Hlt|Hge]; [|by subst b].
  exists (take BATCH_SZ cands). split; [done|].
  rewrite length_take. unfold BATCH_SZ in *. lia.
Qed.

(** The ids of a crawl's results are pairwise distinct. *)
Lemma crawl_NoDup replies p out remaining_batches p' :
  crawl replies p out remaining_batches p' →
  NoDup ((out ≫= released_ids) ++ released_ids remaining_batches).
Proof.
  intros [out' p1 b p2 Hingest Hflush].
  apply NoDup_app. split_and!.
  - by eapply ingest_all_NoDup.
  - apply ingest_all_effect in Hingest as (_ & _ & _ & _ & _ & Hh1 & _).
    apply release_effect in Hflush as (_ & _ & _ & _ & _ & _ & _ & _ & Hsub).
    rewrite unreleased_eq, Hh1 in Hsub.
    intros x Hx Hx'. apply (elem_of_list_to_set (C := gset string)) in Hx, Hx'.
    apply Hsub in Hx'. set_solver.
  - by eapply release_NoDup.
Qed.

Lemma demo_pool_reachable :
  pool_reachable (Some Queue_new) 3 demo_pipe demo_pool.
Proof.
  unfold pool_reachable.
  eapply rtc_l; [apply (step_put "A"); reflexivity|].
  eapply rtc_l; [apply (step_put "B"); reflexivity|].
  eapply rtc_l; [apply (step_put SENTINEL); reflexivity|].
  eapply rtc_l; [apply step_prod_returns; reflexivity|].
  eapply rtc_l.
  { apply (step_get_follower 0%nat _ "A" ["B"; SENTINEL]%string);
      [reflexivity|reflexivity|discriminate]. }
  eapply rtc_l.
  { apply (step_get_follower 1%nat _ "B" [SENTINEL]);
      [reflexivity|reflexivity|discriminate]. }
  eapply rtc_l.
  { unfold pool_next.
    refine (step_fetched 0%nat _ "A" demo_reply [] _ _ _); [reflexivity|].
    apply new_candidate_batches_exec_sound. vm_compute. reflexivity. }
  vm_compute. apply rtc_refl.
Qed.

Lemma demo_pool_joined_reachable :
  pool_reachable (Some Queue_new) 3 demo_pipe demo_pool_joined.
Proof.
  unfold pool_reachable. eapply rtc_trans; [apply demo_pool_reachable|].
  eapply rtc_l.
  { unfold pool_next.
    exact (step_get_sentinel 0%nat demo_pool [] eq_refl eq_refl). }
  eapply rtc_l.
  { unfold pool_next.
    refine (step_fetched 1%nat _ "B" demo_reply [] _ _ _); [reflexivity|].
    apply new_candidate_batches_exec_sound. vm_compute. reflexivity. }
  vm_compute. apply rtc_refl.
Qed.

Lemma queued_ids_streamed (out : list (list item)) :
  (Streamed <$> out) ≫= queued_ids = out ≫= released_ids.
Proof.
  induction out as [|b out IH]; [done|].
  by rewrite fmap_cons, !bind_cons, IH.
Qed.

Lemma queued_ids_flushed (batches : list item) :
  (Flushed <$> batches) ≫= queued_ids = released_ids batches.
Proof.
  unfold released_ids. induction batches as [|c batches IH]; [done|].
  rewrite fmap_cons, !bind_cons, IH. simpl. by rewrite app_nil_r.
Qed.

(** A pool without workers only ever grows its queue. *)
Lemma pool_without_workers s s' :
  rtc pool_next s s' →
  t_followings s = [] →
  t_followings s' = [] ∧ self_pipe s' = self_pipe s ∧ q_out s' = q_out s ∧
  (queue_items (q_foll_ids s) ≠ [] → queue_items (q_foll_ids s') ≠ []).
Proof.
  induction 1 as [s|s s1 s' Hstep Hrest IH]; intros Hnone; [done|].
  unfold pool_next in Hstep. remember (Running s1) as o eqn:Ho.
  destruct Hstep as [x s Hp | s Hp | w s rest Hw Hitems
                     | w s x rest Hw Hitems Hne
                     | w s x reply b p' Hw Hupd];
    try (by rewrite Hnone in Hw).
  - injection Ho as <-. destruct (IH Hnone) as (Ht & Hp' & Hq & Hitems).
    split_and!; [done|done|done|]. intros _. apply Hitems. simpl.
    by destruct (queue_items (q_foll_ids s)).
  - injection Ho as <-. by destruct (IH Hnone) as (Ht & Hp' & Hq & Hitems).
Qed.

(** * Facts about schedules *)

(** The five ways a task switch can go on. *)
Lemma pool_next_cases s s1 :
  pool_next s s1 →
  (∃ x, t_prod_done s = false ∧
        s1 = MkPool (put_nowait x (q_foll_ids s)) (q_out s) false
                    (t_followings s) (self_pipe s)) ∨
  (t_prod_done s = false ∧
   s1 = MkPool (q_foll_ids s) (q_out s) true (t_followings s) (self_pipe s)) ∨
  (∃ (w : nat) rest u,
     t_followings s !! w = Some AwaitGet ∧
     queue_items (q_foll_ids s) = SENTINEL :: rest ∧
     unfinished_tasks (q_foll_ids s) = S u ∧
     s1 = MkPool (MkQueue rest u) (q_out s) (t_prod_done s)
                 (t_followings s) (self_pipe s)) ∨
  (∃ (w : nat) follower_id rest,
     t_followings s !! w = Some AwaitGet ∧
     queue_items (q_foll_ids s) = follower_id :: rest ∧
     follower_id ≠ SENTINEL ∧
     s1 = MkPool (MkQueue rest (unfinished_tasks (q_foll_ids s))) (q_out s)
                 (t_prod_done s)
                 (<[w := AwaitFetch follower_id]> (t_followings s)) (self_pipe s)) ∨
  (∃ (w : nat) follower_id reply batch p' u,
     t_followings s !! w = Some (AwaitFetch follower_id) ∧
     update_followings reply false (self_pipe s) batch p' ∧
     unfinished_tasks (q_foll_ids s) = S u ∧
     s1 = MkPool (MkQueue (queue_items (q_foll_ids s)) u)
                 (forward (q_out s) batch) (t_prod_done s)
                 (<[w := AwaitGet]> (t_followings s)) p').
Proof.
  unfold pool_next. intros Hstep. remember (Running s1) as o eqn:Ho.
  destruct Hstep as [x s Hp | s Hp | w s rest Hw Hitems
                     | w s x rest Hw Hitems Hne
                     | w s x reply b p' Hw Hupd].
  - injection Ho as <-. left. by exists x.
  - injection Ho as <-. right. by left.
  - unfold task_done in Ho. simpl in Ho.
    destruct (unfinished_tasks (q_foll_ids s)) as [|u] eqn:Hu; [done|].
    injection Ho as <-. do 2 right. left. by exists w, rest, u.
  - injection Ho as <-. do 3 right. left. by exists w, x, rest.
  - unfold task_done in Ho.
    destruct (unfinished_tasks (q_foll_ids s)) as [|u] eqn:Hu; [done|].
    injection Ho as <-. do 4 right. by exists w, x, reply, b, p', u.
Qed.

Lemma completed_by_cons t t1 ws ws1 :
  completed_by (t :: ws) (t1 :: ws1)
  = match t, t1 with
    | AwaitFetch follower_id, AwaitGet => follower_id :: completed_by ws ws1
    | _, _ => completed_by ws ws1
    end.
Proof. unfold completed_by. simpl. by destruct t, t1. Qed.

Lemma completed_by_same ws : completed_by ws ws = [].
Proof.
  induction ws as [|t ws IH]; [done|].
  rewrite completed_by_cons, IH. by destruct t.
Qed.

Lemma completed_by_fetch ws (w : nat) x :
  ws !! w = Some AwaitGet → completed_by ws (<[w := AwaitFetch x]> ws) = [].
Proof.
  revert w. induction ws as [|t ws IH]; intros [|w] Hw; try done.
  - injection Hw as ->. simpl. rewrite completed_by_cons. apply completed_by_same.
  - simpl. rewrite completed_by_cons, (IH w Hw). by destruct t.
Qed.

Lemma completed_by_fetched ws (w : nat) follower_id :
  ws !! w = Some (AwaitFetch follower_id) →
  completed_by ws (<[w := AwaitGet]> ws) = [follower_id].
Proof.
  revert w. induction ws as [|t ws IH]; intros [|w] Hw; try done.
  - injection Hw as ->. simpl. rewrite completed_by_cons. f_equal.
    apply completed_by_same.
  - simpl. rewrite completed_by_cons, (IH w Hw). by destruct t.
Qed.




Lemma rtc_pool_path s s' : rtc pool_next s s' → ∃ path, pool_path s path s'.
Proof.
  induction 1 as [s|s s1 s' Hstep Hrest [path IH]].
  - exists []. constructor.
  - exists (s1 :: path). by econstructor.
Qed.






(** Along any schedule the replies ingested are one per completed fetch,
    and no worker ever fetches for the sentinel. *)
Lemma pool_path_ingests q_out0 self s path s' :
  pool_path s path s' →
  (∀ (w : nat) follower_id,
     t_followings s !! w = Some (AwaitFetch follower_id) → follower_id ≠ SENTINEL) →
  ∀ replies out,
    ingest_all replies self out (self_pipe s) →
    q_out s = foldl forward q_out0 out →
    (∀ (w : nat) follower_id,
       t_followings s' !! w = Some (AwaitFetch follower_id) → follower_id ≠ SENTINEL) ∧
    (SENTINEL ∉ completed_along s path) ∧
    ∃ replies' out',
      length replies' = length (completed_along s path) ∧
      ingest_all (replies ++ replies') self (out ++ out') (self_pipe s') ∧
      q_out s' = foldl forward q_out0 (out ++ out').
Proof.
  induction 1 as [s|s s1 path s' Hstep Hpath IH]; intros Hinv replies out Hing Hout.
  - split_and!; [done|apply not_elem_of_nil|].
    exists [], []. by rewrite !app_nil_r.
  - destruct (pool_next_cases _ _ Hstep)
      as [(x & Hp & ->)|[(Hp & ->)|[(w & rest & u & Hw & Hitems & Hu & ->)
         |[(w & x & rest & Hw & Hitems & Hne & ->)
          |(w & x & reply & b & p' & u & Hw & Hupd & Hu & ->)]]]].
    + destruct (IH Hinv replies out Hing Hout) as (Hinv' & Hno & Hex).
      simpl. rewrite completed_by_same. by split_and!.
    + destruct (IH Hinv replies out Hing Hout) as (Hinv' & Hno & Hex).
      simpl. rewrite completed_by_same. by split_and!.
    + destruct (IH Hinv replies out Hing Hout) as (Hinv' & Hno & Hex).
      simpl. rewrite completed_by_same. by split_and!.
    + simpl in IH. destruct (IH) with (replies := replies) (out := out)
        as (Hinv' & Hno & Hex); [|done|done|].
      * intros w' y Hw'. destruct (decide (w' = w)) as [->|Hww].
        -- rewrite list_lookup_insert_eq in Hw'
             by (by apply lookup_lt_Some in Hw).
           by injection Hw' as <-.
        -- rewrite list_lookup_insert_ne in Hw' by done. by eapply Hinv.
      * simpl. rewrite (completed_by_fetch _ _ _ Hw). by split_and!.
    + simpl in IH.
      destruct (IH) with (replies := replies ++ [reply]) (out := out ++ [b])
        as (Hinv' & Hno & replies' & out' & Hlen & Hing' & Hout').
      * intros w' y Hw'. destruct (decide (w' = w)) as [->|Hww].
        -- rewrite list_lookup_insert_eq in Hw'
             by (by apply lookup_lt_Some in Hw).
           done.
        -- rewrite list_lookup_insert_ne in Hw' by done. by eapply Hinv.
      * by eapply ingest_all_snoc.
      * by rewrite foldl_app, <- Hout.
      * simpl. rewrite (completed_by_fetched _ _ _ Hw). split_and!; [done| |].
        -- simpl. apply not_elem_of_cons. split; [|done].
           intros Heq. by apply (Hinv w x Hw).
        -- exists (reply :: replies'), (b :: out').
           rewrite <- !app_assoc in Hing'. rewrite <- !app_assoc in Hout'.
           split_and!; [simpl; by rewrite Hlen|exact Hing'|exact Hout'].
Qed.

Lemma demo_schedule_path :
  pool_path (run_start (Some Queue_new) 3 demo_pipe) demo_schedule demo_pool_joined.
Proof.
  unfold demo_schedule, pool_next.
  econstructor; [apply (step_put "A"); reflexivity|].
  econstructor; [apply (step_put "B"); reflexivity|].
  econstructor; [apply (step_put SENTINEL); reflexivity|].
  econstructor; [apply step_prod_returns; reflexivity|].
  econstructor.
  { unfold pool_next.
    match goal with
    | |- pool_step ?s _ =>
        exact (step_get_follower 0%nat s "A" ["B"; SENTINEL]%string
                 eq_refl eq_refl ltac:(discriminate))
    end. }
  econstructor.
  { unfold pool_next.
    match goal with
    | |- pool_step ?s _ =>
        exact (step_get_follower 1%nat s "B" [SENTINEL] eq_refl eq_refl
                 ltac:(discriminate))
    end. }
  econstructor.
  { unfold pool_next.
    match goal with
    | |- pool_step ?s _ =>
        refine (step_fetched 0%nat s "A" demo_reply [] _ eq_refl _)
    end.
    apply new_candidate_batches_exec_sound. vm_compute. reflexivity. }
  econstructor.
  { unfold pool_next.
    exact (step_get_sentinel 0%nat demo_pool [] eq_refl eq_refl). }
  econstructor; [|constructor].
  unfold pool_next.
  match goal with
  | |- pool_step ?s _ =>
      refine (step_fetched 1%nat s "B" demo_reply [] _ eq_refl _)
  end.
  apply new_candidate_batches_exec_sound. vm_compute. reflexivity.
Qed.

(** * The claims *)

(** C1. Whatever replies a pipe ingests, and whether or not they list the
    streamer's own id, that id is absent from the counts read through the
    accessor [followings_counter] and absent from [mutual_followings]. *)
Theorem subject_never_counted replies p out p' :
  ingest_all replies p out p' →
  streamer_id (folnet p') = streamer_id (folnet p) ∧
  counts (folnet p') !! streamer_id (folnet p) = None ∧
  mutual (folnet p') !! streamer_id (folnet p) = None.
Proof.
  intros (Hs & _)%ingest_all_effect. rewrite <- Hs.
  split_and!; [done|apply counts_streamer|apply mutual_streamer].
Qed.

Lemma subject_never_counted_witness :
  streamer_id (folnet demo_ingested) = "S"%string ∧
  counts (folnet demo_ingested) !! "S"%string = None ∧
  mutual (folnet demo_ingested) !! "S"%string = None.
Proof.
  apply (subject_never_counted demo_replies demo_pipe
           [[]; []; []; []; []] demo_ingested).
  apply ingest_all_exec_sound. vm_compute. reflexivity.
Defined.

(** C2. With [BATCH_SZ = 100]: a streaming release always returns; when more
    than 100 qualifying candidates are unreleased it returns one flat chunk
    of exactly 100 distinct unreleased ids and adds exactly those to the
    released set; when 100 or fewer are unreleased it returns the empty list
    and the released set stays as it was. *)
Theorem streaming_release_threshold p :
  (∃ batches p', new_candidate_batches false p batches p') ∧
  ∀ batches p', new_candidate_batches false p batches p' →
    ((100 < size (unreleased p))%nat →
       ∃ chunk, batches = Uid <$> chunk ∧ length chunk = 100%nat ∧ NoDup chunk ∧
                list_to_set chunk ⊆ unreleased p ∧
                batch_history p' = batch_history p ∪ list_to_set chunk ∧
                size (batch_history p') = (size (batch_history p) + 100)%nat) ∧
    ((size (unreleased p) ≤ 100)%nat →
       batches = [] ∧ batch_history p' = batch_history p).
Proof.
  split; [apply new_candidate_batches_total|].
  intros batches p' Hcall.
  pose proof (release_effect _ _ _ _ Hcall) as (_ & _ & _ & _ & _ & _ & _ & Hh & Hsub).
  apply new_candidate_batches_inv in Hcall as (cands & Hperm & Hb & _).
  destruct (listing_facts _ _ Hperm) as (Hnd & Hset & Hlen).
  rewrite Hb, released_ids_stream in Hh, Hsub. rewrite batchify_stream in Hb.
  rewrite <- Hlen. change 100%nat with BATCH_SZ.
  destruct (Nat.ltb_spec BATCH_SZ (length cands)) as [Hlt|Hge].
  - split; [intros _|lia].
    assert (NoDup (take BATCH_SZ cands)) as Hnd'.
    { eapply sublist_NoDup; [done|apply sublist_take]. }
    exists (take BATCH_SZ cands). split_and!; try done.
    + rewrite length_take. lia.
    + rewrite Hh, size_union.
      * rewrite size_list_to_set by done. rewrite length_take. lia.
      * rewrite unreleased_eq in Hsub. set_solver.
  - split; [lia|intros _]. split; [done|].
    rewrite Hh. simpl. by rewrite union_empty_r_L.
Qed.

Lemma streaming_release_threshold_witness :
  ∃ batches p',
    new_candidate_batches false (backlog_pipe 101) batches p' ∧
    length batches = 100%nat ∧ size (batch_history p') = 100%nat.
Proof.
  destruct (streaming_release_threshold (backlog_pipe 101))
    as [(batches & p' & Hcall) Hspec].
  exists batches, p'. split; [exact Hcall|].
  destruct (Hspec batches p' Hcall) as [Hbig _].
  destruct Hbig as (chunk & -> & Hlen & _ & _ & _ & Hsz).
  - vm_compute. lia.
  - rewrite length_fmap. split; [exact Hlen|]. exact Hsz.
Defined.

(** What a flush does in any state. It always returns. Afterwards the
    released set is the previously released set together with the keys of
    [mutual_followings] at flush time; it is exactly that key set whenever
    every previously released id still qualifies, which ingesting replies
    preserves, so that a pipe that is alone in its process ends a flush with
    exactly the keys released. The returned chunks list the ids newly marked
    released, each once; every chunk holds between 1 and [BATCH_SZ] ids and
    every chunk but the last holds [BATCH_SZ]. *)
Theorem flush_release p :
  (∃ batches p', new_candidate_batches true p batches p') ∧
  (∀ batches p', new_candidate_batches true p batches p' →
     batch_history p' = batch_history p ∪ dom (mutual (folnet p)) ∧
     mutual (folnet p') = mutual (folnet p) ∧
     (batch_history p ⊆ dom (mutual (folnet p)) →
      batch_history p' = dom (mutual (folnet p))) ∧
     ∃ chunks,
       batches = Batch <$> chunks ∧
       NoDup (concat chunks) ∧
       list_to_set (concat chunks) = batch_history p' ∖ batch_history p ∧
       ∀ i c, chunks !! i = Some c →
         (0 < length c ≤ BATCH_SZ)%nat ∧
         (S i < length chunks → length c = BATCH_SZ)%nat) ∧
  (∀ replies p0 out,
     batch_history p0 ⊆ dom (mutual (folnet p0)) →
     ingest_all replies p0 out p →
     batch_history p ⊆ dom (mutual (folnet p))).
Proof.
  split_and!; [apply new_candidate_batches_total| |].
  - intros batches p' Hcall.
    pose proof (release_effect _ _ _ _ Hcall)
      as (_ & Hm & _ & _ & _ & _ & _ & Hh & _).
    apply new_candidate_batches_inv in Hcall as (cands & Hperm & Hb & _).
    destruct (listing_facts _ _ Hperm) as (Hnd & Hset & _).
    rewrite Hb, released_ids_flush, Hset, unreleased_eq in Hh.
    assert (batch_history p' = batch_history p ∪ dom (mutual (folnet p))) as Hh'.
    { rewrite Hh. apply set_eq. intros x.
      rewrite !elem_of_union, elem_of_difference.
      destruct (decide (x ∈ batch_history p)); tauto. }
    split_and!; [done|done|set_solver|].
    exists (slices BATCH_SZ cands).
    rewrite concat_slices by apply BATCH_SZ_pos.
    split_and!; [done|done| |].
    + rewrite Hset, unreleased_eq, Hh'. set_solver.
    + intros i c. apply lookup_slices, BATCH_SZ_pos.
  - intros replies p0 out Hinv (_ & _ & _ & _ & Hd & Hh & Hr)%ingest_all_effect.
    rewrite Hh. set_solver.
Qed.

Lemma flush_release_witness :
  ∃ batches p',
    new_candidate_batches_exec true demo_ingested = Some (batches, p') ∧
    batch_history p' = dom (mutual (folnet demo_ingested)) ∧
    batch_history demo_ingested ⊆ dom (mutual (folnet demo_ingested)).
Proof.
  destruct (new_candidate_batches_exec true demo_ingested)
    as [[batches p']|] eqn:Hexec; [|vm_compute in Hexec; discriminate].
  exists batches, p'. split; [done|].
  apply new_candidate_batches_exec_sound in Hexec.
  destruct (flush_release demo_ingested) as (_ & Hflush & Hinv).
  assert (batch_history demo_ingested ⊆ dom (mutual (folnet demo_ingested))) as Hsub.
  { apply (Hinv demo_replies demo_pipe [[]; []; []; []; []]).
    - vm_compute. intros x Hx. exact Hx.
    - apply ingest_all_exec_sound. vm_compute. reflexivity. }
  destruct (Hflush batches p' Hexec) as (_ & _ & Heq & _).
  split; [by apply Heq|done].
Defined.

(** C3. After a flush the released set is to equal the keys of
    [mutual_followings] at flush time. The code breaks this as soon as a
    process holds a second pipe, because [batch_history] is one set on the
    class while the counters next to it are per pipe: the second pipe of
    [second_crawl], reached from the start of the process, finds ["A"],
    released by the first pipe, in [batch_history]; its flush returns
    nothing and leaves the released set [{"A"}], while its own
    [mutual_followings] is empty. *)
Theorem flush_completeness_broken_by_shared_history :
  rtc process_step process_start second_crawl ∧
  load 1%nat second_crawl = Some second_pipe ∧
  (∃ batches p', new_candidate_batches true second_pipe batches p') ∧
  ∀ batches p', new_candidate_batches true second_pipe batches p' →
    batches = [] ∧
    batch_history p' = {[ "A"%string ]} ∧
    dom (mutual (folnet second_pipe)) = (∅ : gset string) ∧
    batch_history p' ≠ dom (mutual (folnet second_pipe)).
Proof.
  destruct second_crawl_reachable as [Hreach Hload].
  split_and!; [done|done|apply new_candidate_batches_total|].
  intros batches p' Hcall.
  pose proof (release_effect _ _ _ _ Hcall)
    as (_ & _ & _ & _ & _ & _ & _ & Hh & _).
  apply new_candidate_batches_inv in Hcall as (cands & Hperm & Hb & _).
  assert (dom (mutual (folnet second_pipe)) = (∅ : gset string)) as Hdom
    by (vm_compute; reflexivity).
  rewrite unreleased_eq, Hdom, empty_difference_L, elements_empty in Hperm.
  apply Permutation_nil_r in Hperm as ->.
  rewrite Hb in Hh. rewrite Hb. split_and!; [done| |done|].
  - rewrite Hh. vm_compute. reflexivity.
  - rewrite Hh, Hdom. vm_compute. discriminate.
Qed.

(** C7. When every qualifying candidate has already been released, a flush
    returns the empty list of chunks and leaves the released set as it was;
    in particular a flush that directly follows a flush returns the empty
    list. A flush always returns. *)
Theorem flush_idempotent p :
  (∃ batches p', new_candidate_batches true p batches p') ∧
  (dom (mutual (folnet p)) ⊆ batch_history p →
   ∀ batches p', new_candidate_batches true p batches p' →
     batches = [] ∧ batch_history p' = batch_history p) ∧
  (∀ batches1 p1 batches2 p2,
     new_candidate_batches true p batches1 p1 →
     new_candidate_batches true p1 batches2 p2 →
     batches2 = [] ∧ batch_history p2 = batch_history p1).
Proof.
  assert (∀ q, dom (mutual (folnet q)) ⊆ batch_history q →
    ∀ batches q', new_candidate_batches true q batches q' →
      batches = [] ∧ batch_history q' = batch_history q) as Hdone.
  { intros q Hsub batches q' Hcall.
    pose proof (release_effect _ _ _ _ Hcall)
      as (_ & _ & _ & _ & _ & _ & _ & Hh & _).
    apply new_candidate_batches_inv in Hcall as (cands & Hperm & Hb & _).
    assert (unreleased q = ∅) as Hnone by (rewrite unreleased_eq; set_solver).
    rewrite Hnone, elements_empty in Hperm.
    apply Permutation_nil_r in Hperm as ->.
    rewrite batchify_flush, slices_nil in Hb by apply BATCH_SZ_pos.
    subst batches. split; [done|]. rewrite Hh. simpl. by rewrite union_empty_r_L. }
  split_and!; [apply new_candidate_batches_total|apply Hdone|].
  intros batches1 p1 batches2 p2 Hfirst Hsecond.
  apply (Hdone p1); [|done].
  destruct (flush_effect _ _ _ Hfirst) as (Hh & Hm & _).
  rewrite Hm, Hh. set_solver.
Qed.

Lemma flush_idempotent_witness :
  ∃ batches1 p1 batches2 p2,
    new_candidate_batches_exec true demo_ingested = Some (batches1, p1) ∧
    new_candidate_batches_exec true p1 = Some (batches2, p2) ∧
    batches1 ≠ [] ∧ batches2 = [] ∧ batch_history p2 = batch_history p1.
Proof.
  destruct (new_candidate_batches_exec true demo_ingested)
    as [[batches1 p1]|] eqn:H1; [|vm_compute in H1; discriminate].
  destruct (new_candidate_batches_exec true p1)
    as [[batches2 p2]|] eqn:H2;
    [|unfold new_candidate_batches_exec in H2; by rewrite release_eq in H2].
  exists batches1, p1, batches2, p2. split_and!; [done|done| |  |].
  - vm_compute in H1. by injection H1 as <- _.
  - apply new_candidate_batches_exec_sound in H1, H2.
    by destruct (proj2 (proj2 (flush_idempotent demo_ingested)) _ _ _ _ H1 H2).
  - apply new_candidate_batches_exec_sound in H1, H2.
    by destruct (proj2 (proj2 (flush_idempotent demo_ingested)) _ _ _ _ H1 H2).
Defined.

(** C6, as the code has it. Two consecutive reads of [mutual_followings]
    return the same mapping, and a read changes neither [streamer_id] nor
    [min_mutual] nor the counts the accessor shows; the stored counter loses
    the streamer's own entry on the first read, and is left untouched when
    it holds no such entry. *)
Theorem mutual_followings_repeatable fn :
  (mutual_followings (mutual_followings fn).2).1 = (mutual_followings fn).1 ∧
  (mutual_followings (mutual_followings fn).2).2 = (mutual_followings fn).2 ∧
  streamer_id (mutual_followings fn).2 = streamer_id fn ∧
  min_mutual (mutual_followings fn).2 = min_mutual fn ∧
  counts (mutual_followings fn).2 = counts fn ∧
  _followings_counter (mutual_followings fn).2
  = delete (streamer_id fn) (_followings_counter fn) ∧
  (_followings_counter fn !! streamer_id fn = None → (mutual_followings fn).2 = fn).
Proof.
  rewrite !mutual_followings_snd. split_and!.
  - apply mutual_popped.
  - apply popped_clean. exact (counts_streamer fn).
  - done.
  - done.
  - apply counts_popped.
  - done.
  - apply popped_clean.
Qed.

(** C6 as stated fails: after recording a report that lists the streamer,
    reading [mutual_followings] removes the streamer's entry from the
    stored counter. *)
Lemma mutual_followings_pure_counterexample :
  self_following = record ["S"; "X"]%string (FollowerNetwork_init "S" 1) ∧
  _followings_counter self_following = {[ "S"%string := 1; "X"%string := 1 ]} ∧
  _followings_counter (mutual_followings self_following).2 = {[ "X"%string := 1 ]} ∧
  (mutual_followings self_following).2 ≠ self_following.
Proof.
  split_and!; [done|vm_compute; reflexivity|vm_compute; reflexivity|].
  intros Heq. apply (f_equal (λ fn, _followings_counter fn !! "S"%string)) in Heq.
  vm_compute in Heq. discriminate.
Qed.

(** C8. A falsy reply ([None] or an empty dict) is neither accepted nor
    rejected: the call is exactly a streaming release on the pipe as it was,
    it returns, and it leaves the counts and both counters unchanged. *)
Theorem falsy_reply_skipped reply p :
  truthy reply = false →
  (∃ batches p', update_followings reply false p batches p') ∧
  (∀ batches p',
     update_followings reply false p batches p'
     ↔ new_candidate_batches false p batches p') ∧
  (∀ batches p', update_followings reply false p batches p' →
     counts (folnet p') = counts (folnet p) ∧
     num_collected p' = num_collected p ∧
     num_skipped p' = num_skipped p ∧
     (_followings_counter (folnet p) !! streamer_id (folnet p) = None →
      folnet p' = folnet p)).
Proof.
  intros Hfalsy. unfold update_followings. rewrite (account_falsy _ _ Hfalsy).
  split_and!; [apply new_candidate_batches_total|done|].
  intros batches p' Hcall.
  pose proof (release_effect _ _ _ _ Hcall) as (Hc & _ & _ & _ & _ & Hnc & Hns & _).
  split_and!; try done.
  apply new_candidate_batches_inv in Hcall as (_ & _ & _ & ->). simpl.
  apply popped_clean.
Qed.

Lemma falsy_reply_skipped_witness :
  ∃ batches p',
    update_followings ReplyNone false demo_ingested batches p' ∧
    counts (folnet p') = counts (folnet demo_ingested) ∧
    num_collected p' = 3 ∧ num_skipped p' = 1.
Proof.
  destruct (falsy_reply_skipped ReplyNone demo_ingested) as (Hret & _ & Hkeep);
    [reflexivity|].
  destruct Hret as (batches & p' & Hcall). exists batches, p'.
  destruct (Hkeep _ _ Hcall) as (Hc & Hnc & Hns & _). by split_and!.
Defined.

(** C5, as the code has it. Ingesting a truthy reply always returns. If its
    total is at most [max_followings], [num_collected] grows by one,
    [num_skipped] is unchanged, and the count of every followed id other
    than the streamer's grows by one per occurrence in the reply (by exactly
    one when the reply lists it once), other counts being unchanged; the
    streamer's own id stays absent. If the total exceeds the bound,
    [num_skipped] grows by one and [num_collected] and the counts are
    unchanged. Over a run, the two counters together grow by the number of
    truthy replies. *)
Theorem accept_reject_accounting :
  (∀ reply p, ∃ batches p', update_followings reply false p batches p') ∧
  (∀ total foll_data p batches p',
     update_followings (Reply total foll_data) false p batches p' →
     (total ≤ max_followings p →
        num_collected p' = num_collected p + 1 ∧
        num_skipped p' = num_skipped p ∧
        counts (folnet p') !! streamer_id (folnet p) = None ∧
        ∀ k, k ≠ streamer_id (folnet p) →
          Counter.get (counts (folnet p')) k
          = Counter.get (counts (folnet p)) k
            + Z.of_nat (occurrences k (to_id <$> foll_data)) ∧
          (k ∈ to_id <$> foll_data → is_Some (counts (folnet p') !! k)) ∧
          (k ∈ to_id <$> foll_data → NoDup (to_id <$> foll_data) →
           Counter.get (counts (folnet p')) k
           = Counter.get (counts (folnet p)) k + 1) ∧
          (k ∉ to_id <$> foll_data →
           counts (folnet p') !! k = counts (folnet p) !! k)) ∧
     (max_followings p < total →
        num_skipped p' = num_skipped p + 1 ∧
        num_collected p' = num_collected p ∧
        counts (folnet p') = counts (folnet p))) ∧
  (∀ replies p out p',
     ingest_all replies p out p' →
     num_collected p' + num_skipped p'
     = num_collected p + num_skipped p
       + Z.of_nat (length (filter (λ r, truthy r) replies))).
Proof.
  split_and!.
  - intros reply p. apply new_candidate_batches_total.
  - intros total foll_data p batches p' Hcall.
    pose proof (release_effect _ _ _ _ Hcall)
      as (Hc & _ & Hs & _ & _ & Hnc & Hns & _).
    split.
    + intros Hle. rewrite (account_accepted _ _ _ Hle) in Hc, Hs, Hnc, Hns.
      cbn [folnet num_collected num_skipped] in Hc, Hs, Hnc, Hns.
      rewrite streamer_id_record in Hs. rewrite counts_record in Hc.
      split_and!; [done|done| |].
      * rewrite <- Hs. apply counts_streamer.
      * intros k Hne. rewrite Hc. unfold Counter.pop, Counter.get.
        rewrite lookup_delete_ne by done. rewrite lookup_update.
        fold (Counter.get (counts (folnet p)) k).
        destruct (decide (k ∈ to_id <$> foll_data)) as [Hin|Hni].
        -- simpl. split_and!; [done|eauto| |done].
           intros _ Hnd. by rewrite occurrences_NoDup.
        -- rewrite occurrences_notin by done. split_and!; [|done|done|done].
           unfold Counter.get. simpl. lia.
    + intros Hgt. rewrite (account_rejected _ _ _ Hgt) in Hc, Hnc, Hns.
      by cbn [folnet num_collected num_skipped] in Hc, Hnc, Hns.
  - intros replies p out p' [Hnc Hns]%ingest_all_counters.
    rewrite Hnc, Hns.
    pose proof (accepted_rejected_truthy (max_followings p) replies). lia.
Qed.

Lemma accept_reject_accounting_witness :
  num_collected demo_ingested + num_skipped demo_ingested
  = num_collected demo_pipe + num_skipped demo_pipe + 4.
Proof.
  apply (proj2 (proj2 accept_reject_accounting) demo_replies demo_pipe
           [[]; []; []; []; []] demo_ingested).
  apply ingest_all_exec_sound. vm_compute. reflexivity.
Defined.

(** C5 as stated fails for the streamer's own id, which every follower's
    reply lists: the reply is accepted, yet afterwards the streamer has no
    entry in the counts, neither through the accessor nor in the stored
    counter. *)
Lemma accept_counts_subject_counterexample :
  3 ≤ max_followings demo_pipe ∧
  streamer_id (folnet demo_pipe) ∈ to_id <$> [MkFollowing "S"; MkFollowing "X"; MkFollowing "Y"] ∧
  (∃ batches p', update_followings demo_reply false demo_pipe batches p') ∧
  ∀ batches p', update_followings demo_reply false demo_pipe batches p' →
    num_collected p' = num_collected demo_pipe + 1 ∧
    counts (folnet p') !! "S"%string = None ∧
    _followings_counter (folnet p') !! "S"%string = None ∧
    Counter.get (counts (folnet p')) "S"
    ≠ Counter.get (counts (folnet demo_pipe)) "S" + 1.
Proof.
  split_and!.
  - vm_compute. discriminate.
  - vm_compute. apply elem_of_cons. by left.
  - apply new_candidate_batches_total.
  - intros batches p' Hcall.
    pose proof (release_effect _ _ _ _ Hcall)
      as (_ & _ & Hs & _ & _ & Hnc & _).
    assert (counts (folnet p') !! "S"%string = None) as Hnone.
    { pose proof (counts_streamer (folnet p')) as Hp'. by rewrite Hs in Hp'. }
    split_and!; [by rewrite Hnc| done | |].
    + apply new_candidate_batches_inv in Hcall as (_ & _ & _ & ->).
      exact (counts_streamer (folnet (account demo_reply demo_pipe))).
    + unfold Counter.get. rewrite Hnone. vm_compute. discriminate.
Qed.

(** C4. All pipes of a process read [batch_history] from the class: two
    pipes see the same set, a pipe constructed later sees it too, and an id
    released through one pipe is from then on, whatever the process does
    next, in the released set of every pipe and outside every pipe's set
    of unreleased candidates. *)
Theorem batch_history_shared P i j pi pj :
  load i P = Some pi →
  load j P = Some pj →
  batch_history pi = batch_history pj ∧
  (∀ fn_ref max pk,
     load (new_FollowNetPipe fn_ref max P).1 (new_FollowNetPipe fn_ref max P).2
     = Some pk →
     batch_history pk = batch_history pi) ∧
  (∀ batches P',
     (∃ remainder, call_new_candidate_batches i remainder P batches P') ∨
     (∃ reply all_batches,
        call_update_followings i reply all_batches P batches P') →
     ∀ P'', rtc process_step P' P'' →
     ∀ k pk, load k P'' = Some pk →
     ∀ uid, uid ∈ released_ids batches →
       uid ∈ batch_history pk ∧ uid ∉ unreleased pk).
Proof.
  intros Hi Hj. split_and!.
  - by rewrite (load_batch_history _ _ _ Hi), (load_batch_history _ _ _ Hj).
  - intros fn_ref max pk Hk.
    by rewrite (load_batch_history _ _ _ Hi), (load_batch_history _ _ _ Hk).
  - intros batches P' Hcall P'' Hsteps k pk Hk uid Huid.
    assert (uid ∈ class_batch_history P') as Hin.
    { destruct Hcall as [[r Hcall]|(reply & ab & Hcall)].
      - rewrite (call_new_candidate_batches_history _ _ _ _ _ Hcall).
        apply elem_of_union_r. by apply elem_of_list_to_set.
      - rewrite (call_update_followings_history _ _ _ _ _ _ Hcall).
        apply elem_of_union_r. by apply elem_of_list_to_set. }
    apply (process_steps_history _ _ Hsteps) in Hin.
    rewrite <- (load_batch_history _ _ _ Hk) in Hin.
    split; [done|]. rewrite unreleased_eq. set_solver.
Qed.

Lemma batch_history_shared_witness :
  ∃ p1 p2 batches P',
    load 0%nat two_pipes = Some p1 ∧
    load 1%nat two_pipes = Some p2 ∧
    batch_history p1 = batch_history p2 ∧
    call_new_candidate_batches_exec 0%nat true two_pipes = Some (batches, P') ∧
    batches = [Batch ["A"%string]] ∧
    ∀ p2', load 1%nat P' = Some p2' →
      "A"%string ∈ batch_history p2' ∧ "A"%string ∉ unreleased p2'.
Proof.
  destruct (load 0%nat two_pipes) as [p1|] eqn:H1;
    [|vm_compute in H1; discriminate].
  destruct (load 1%nat two_pipes) as [p2|] eqn:H2;
    [|vm_compute in H2; discriminate].
  destruct (call_new_candidate_batches_exec 0%nat true two_pipes)
    as [[batches P']|] eqn:Hexec; [|vm_compute in Hexec; discriminate].
  destruct (batch_history_shared two_pipes 0%nat 1%nat p1 p2 H1 H2)
    as (Hsame & _ & Hlater).
  assert (batches = [Batch ["A"%string]]) as Hb.
  { vm_compute in Hexec. by injection Hexec as <- _. }
  exists p1, p2, batches, P'.
  split; [reflexivity|]. split; [reflexivity|]. split; [exact Hsame|].
  split; [reflexivity|]. split; [exact Hb|].
  intros p2' Hload.
  pose proof (call_new_candidate_batches_exec_sound _ _ _ _ _ Hexec) as Hcall.
  refine (Hlater batches P' (or_introl (ex_intro _ true Hcall)) P'
            (rtc_refl _ _) 1%nat p2' Hload "A"%string _).
  rewrite Hb. apply elem_of_cons. left. reflexivity.
Defined.

(** C9. Two crawls of the same pipe that ingest the same replies in
    different orders end, after the flush, with the same counts, the same
    [mutual_followings], the same accept and reject counters, the same
    released set and the same set of ids handed out over the whole crawl,
    whatever streaming chunks each produced on the way. A crawl always
    completes. *)
Theorem ingestion_order_independent replies1 replies2 p out1 rem1 q1 out2 rem2 q2 :
  replies1 ≡ₚ replies2 →
  crawl replies1 p out1 rem1 q1 →
  crawl replies2 p out2 rem2 q2 →
  counts (folnet q1) = counts (folnet q2) ∧
  mutual (folnet q1) = mutual (folnet q2) ∧
  batch_history q1 = batch_history q2 ∧
  list_to_set ((out1 ≫= released_ids) ++ released_ids rem1)
  =@{gset string} list_to_set ((out2 ≫= released_ids) ++ released_ids rem2) ∧
  num_collected q1 = num_collected q2 ∧
  num_skipped q1 = num_skipped q2 ∧
  (∃ out rem q, crawl replies2 p out rem q).
Proof.
  intros Hperm Hcrawl1 Hcrawl2.
  destruct (crawl_counters _ _ _ _ _ Hcrawl1) as [Hnc1 Hns1].
  destruct (crawl_counters _ _ _ _ _ Hcrawl2) as [Hnc2 Hns2].
  rewrite Hperm in Hnc1, Hns1.
  revert Hcrawl1 Hcrawl2.
  intros (Hc1 & Hm1 & Hh1 & Hr1)%crawl_effect (Hc2 & Hm2 & Hh2 & Hr2)%crawl_effect.
  assert (counts (folnet q1) = counts (folnet q2)) as Hc.
  { rewrite Hc1, Hc2. apply counts_record_Permutation.
    by apply accepted_ids_Permutation. }
  assert (mutual (folnet q1) = mutual (folnet q2)) as Hm.
  { apply mutual_ext; [done|congruence]. }
  split_and!; [done|done| | |congruence|congruence|apply crawl_total].
  - by rewrite Hh1, Hh2, Hm.
  - by rewrite Hr1, Hr2, Hm.
Qed.

Lemma ingestion_order_independent_witness :
  ∃ out1 rem1 q1 out2 rem2 q2,
    crawl_exec demo_replies demo_pipe = Some (out1, rem1, q1) ∧
    crawl_exec (reverse demo_replies) demo_pipe = Some (out2, rem2, q2) ∧
    counts (folnet q1) = counts (folnet q2) ∧
    mutual (folnet q1) = mutual (folnet q2) ∧
    batch_history q1 = batch_history q2.
Proof.
  destruct (crawl_exec demo_replies demo_pipe) as [[[out1 rem1] q1]|] eqn:H1;
    [|vm_compute in H1; discriminate].
  destruct (crawl_exec (reverse demo_replies) demo_pipe)
    as [[[out2 rem2] q2]|] eqn:H2; [|vm_compute in H2; discriminate].
  exists out1, rem1, q1, out2, rem2, q2.
  split; [reflexivity|]. split; [reflexivity|].
  destruct (ingestion_order_independent demo_replies (reverse demo_replies)
              demo_pipe out1 rem1 q1 out2 rem2 q2)
    as (Hc & Hm & Hh & _).
  - symmetry. apply reverse_Permutation.
  - apply crawl_exec_sound. exact H1.
  - apply crawl_exec_sound. exact H2.
  - split; [exact Hc|]. split; [exact Hm|exact Hh].
Defined.




(** * Further properties of the code *)

(** ** [batchify] on its own *)

(** X1. In flush mode [batchify] cuts any list, duplicates included, into
    consecutive slices: concatenated in order they give the list back, there
    are [ceil(len / 100)] of them, the slice at index [i] starts at position
    [100 * i], none is empty, and all but the last hold exactly 100 ids. *)
Theorem batchify_flush_partition (candidates : list string) :
  ∃ chunks : list (list string),
    batchify candidates true = Batch <$> chunks ∧
    concat chunks = candidates ∧
    length chunks = ((length candidates + 99) / 100)%nat ∧
    ∀ (i : nat) (c : list string), chunks !! i = Some c →
      c = take 100 (drop (100 * i) candidates) ∧
      (0 < length c ≤ 100)%nat ∧
      (S i < length chunks → length c = 100)%nat.
Proof.
  exists (slices BATCH_SZ candidates). split_and!.
  - done.
  - apply concat_slices, BATCH_SZ_pos.
  - rewrite length_slices. unfold BATCH_SZ. f_equal. lia.
  - intros i c Hc. split; [|by apply lookup_slices, Hc; apply BATCH_SZ_pos].
    rewrite slices_seq, list_lookup_fmap in Hc.
    destruct (seq 0 _ !! i) as [k|] eqn:Hk; [|done].
    apply lookup_seq in Hk as [-> _]. simpl in Hc. injection Hc as <-.
    unfold BATCH_SZ. do 2 f_equal. lia.
Qed.

(** X2. A streaming [batchify] that returns anything returns exactly the
    first slice a flush would return, as a flat list of 100 ids. *)
Theorem batchify_stream_first_chunk (candidates : list string) :
  batchify candidates false ≠ [] →
  length (batchify candidates false) = 100%nat ∧
  batchify candidates false = Uid <$> take 100 candidates ∧
  batchify candidates true !! 0%nat
  = Some (Batch (released_ids (batchify candidates false))).
Proof.
  rewrite released_ids_stream, batchify_stream.
  destruct (Nat.ltb_spec BATCH_SZ (length candidates)) as [Hlt|Hge]; [|done].
  intros _. split_and!.
  - rewrite length_fmap, length_take. unfold BATCH_SZ in *. lia.
  - done.
  - rewrite batchify_flush, slices_seq.
    rewrite list_lookup_fmap, list_lookup_fmap.
    rewrite lookup_seq_lt.
    + simpl. by rewrite drop_0.
    + destruct (div_up_bounds BATCH_SZ BATCH_SZ_pos (length candidates)) as [_ Hpos].
      apply Hpos. unfold BATCH_SZ in *. lia.
Qed.

Lemma batchify_stream_first_chunk_witness :
  length (batchify (pretty <$> seq 0 101) false) = 100%nat ∧
  batchify (pretty <$> seq 0 101) false = Uid <$> take 100 (pretty <$> seq 0 101) ∧
  batchify (pretty <$> seq 0 101) true !! 0%nat
  = Some (Batch (released_ids (batchify (pretty <$> seq 0 101) false))).
Proof.
  apply (batchify_stream_first_chunk (pretty <$> seq 0 101)).
  vm_compute. discriminate.
Defined.

(** X3. [batchify] returns the empty list exactly when there is nothing to
    hand out: in flush mode for the empty list only, in streaming mode for
    every list of at most 100 candidates. *)
Theorem batchify_empty_iff (candidates : list string) :
  (batchify candidates true = [] ↔ candidates = []) ∧
  (batchify candidates false = [] ↔ (length candidates ≤ 100)%nat).
Proof.
  split.
  - split.
    + intros Hnil. destruct candidates as [|c cs]; [done|]. exfalso.
      apply (slices_nonempty BATCH_SZ BATCH_SZ_pos (c :: cs)); [done|].
      rewrite batchify_flush in Hnil. by apply fmap_nil_inv in Hnil.
    + intros ->. rewrite batchify_flush, slices_nil by apply BATCH_SZ_pos. done.
  - rewrite batchify_stream. change 100%nat with BATCH_SZ.
    destruct (Nat.ltb_spec BATCH_SZ (length candidates)) as [Hlt|Hge].
    + split; [|intros Hle; lia].
      intros Hnil. apply fmap_nil_inv in Hnil.
      apply (f_equal length) in Hnil. rewrite length_take in Hnil.
      change (length (@nil string)) with 0%nat in Hnil.
      unfold BATCH_SZ in *. lia.
    + done.
Qed.

(** ** One release *)

(** X4. Whatever list of candidates [list(new_candidates)] produces, in
    either mode, [batch_history.update] is handed strings only: the body of
    [new_candidate_batches] does not raise, returns what [batchify] returns,
    touches nothing but the released set, and adds to it exactly the ids it
    returns (all candidates in flush mode). *)
Theorem history_update_never_raises (cands : list string) (remainder : bool)
    (p : FollowNetPipe) :
  ∃ p',
    release cands remainder p = Some (batchify cands remainder, p') ∧
    folnet p' = folnet p ∧ max_followings p' = max_followings p ∧
    num_collected p' = num_collected p ∧ num_skipped p' = num_skipped p ∧
    batch_history p'
    = batch_history p ∪ list_to_set (released_ids (batchify cands remainder)) ∧
    released_ids (batchify cands true) = cands.
Proof.
  eexists. split; [apply release_eq|]. simpl.
  split_and!; try done. apply released_ids_flush.
Qed.

(** X5. The ids one call of [new_candidate_batches] returns are pairwise
    distinct, were not released before, are not the streamer, and each has
    a count of at least [min_mutual]. *)
Theorem released_ids_fresh remainder p batches p' :
  new_candidate_batches remainder p batches p' →
  NoDup (released_ids batches) ∧
  ∀ u, u ∈ released_ids batches →
    (u ∉ batch_history p) ∧
    u ≠ streamer_id (folnet p) ∧
    ∃ v, counts (folnet p) !! u = Some v ∧ min_mutual (folnet p) ≤ v.
Proof.
  intros Hcall. split; [by eapply release_NoDup|].
  apply release_effect in Hcall as (_ & _ & _ & _ & _ & _ & _ & _ & Hsub).
  intros u Hu. apply (elem_of_list_to_set (C := gset string)) in Hu.
  apply Hsub in Hu. rewrite unreleased_eq, elem_of_difference in Hu.
  destruct Hu as [Hdom Hnew]. split_and!; [done| |by apply elem_of_dom_mutual].
  intros ->. by apply dom_mutual_streamer in Hdom.
Qed.

Lemma released_ids_fresh_witness :
  ∃ batches p',
    new_candidate_batches true demo_ingested batches p' ∧
    NoDup (released_ids batches) ∧
    ∀ u, u ∈ released_ids batches →
      (u ∉ batch_history demo_ingested) ∧
      u ≠ "S"%string ∧
      ∃ v, counts (folnet demo_ingested) !! u = Some v ∧ 2 ≤ v.
Proof.
  destruct (new_candidate_batches_total true demo_ingested) as (batches & p' & Hcall).
  exists batches, p'. split; [exact Hcall|].
  exact (released_ids_fresh true demo_ingested batches p' Hcall).
Defined.

(** X6. A streaming release never empties the backlog: when it returns a
    chunk, exactly 100 fewer candidates are unreleased afterwards and at
    least one still is; when it returns nothing the backlog is as before. *)
Theorem streaming_leaves_backlog p batches p' :
  new_candidate_batches false p batches p' →
  (batches ≠ [] →
     size (unreleased p') = (size (unreleased p) - 100)%nat ∧
     (0 < size (unreleased p'))%nat) ∧
  (batches = [] → unreleased p' = unreleased p).
Proof.
  intros Hcall.
  pose proof (release_effect _ _ _ _ Hcall)
    as (_ & Hm & _ & _ & _ & _ & _ & Hh & Hsub).
  assert (unreleased p' = unreleased p ∖ list_to_set (released_ids batches)) as Hu.
  { rewrite !unreleased_eq, Hm, Hh. set_solver. }
  pose proof (release_NoDup _ _ _ _ Hcall) as Hnd.
  apply new_candidate_batches_inv in Hcall as (cands & Hperm & Hb & _).
  destruct (listing_facts _ _ Hperm) as (_ & _ & Hlen).
  rewrite Hb, released_ids_stream in Hu, Hsub, Hnd. rewrite batchify_stream in Hb.
  destruct (Nat.ltb_spec BATCH_SZ (length cands)) as [Hlt|Hge].
  - split; [intros _|intros Hnil; rewrite Hb in Hnil;
                      by apply take_batch_nonempty in Hnil].
    rewrite Hu, size_difference, size_list_to_set, length_take by done.
    unfold BATCH_SZ in *. lia.
  - split; [by subst batches|intros _]. rewrite Hu. simpl. set_solver.
Qed.

Lemma streaming_leaves_backlog_witness :
  ∃ batches p',
    new_candidate_batches false (backlog_pipe 101) batches p' ∧
    batches ≠ [] ∧ size (unreleased p') = 1%nat.
Proof.
  destruct (new_candidate_batches_total false (backlog_pipe 101))
    as (batches & p' & Hcall).
  exists batches, p'. split; [exact Hcall|].
  destruct (streaming_leaves_backlog (backlog_pipe 101) batches p' Hcall) as [Hsome _].
  assert (batches ≠ []) as Hne.
  { apply new_candidate_batches_inv in Hcall as (cands & Hperm & -> & _).
    destruct (listing_facts _ _ Hperm) as (_ & _ & Hlen).
    rewrite batchify_stream.
    assert (length cands = 101%nat) as Hl by (rewrite Hlen; vm_compute; reflexivity).
    destruct (Nat.ltb_spec BATCH_SZ (length cands)) as [Hlt|Hge];
      [|unfold BATCH_SZ in *; lia].
    by apply take_batch_nonempty. }
  split; [exact Hne|]. destruct (Hsome Hne) as [-> _]. vm_compute. reflexivity.
Defined.

(** X7. [update_followings(reply, all_batches=True)] always returns and
    leaves no qualifying candidate unreleased; what it returns is the
    candidates that were unreleased once the reply had been accounted for. *)
Theorem update_all_batches_flushes reply p :
  (∃ batches p', update_followings reply true p batches p') ∧
  ∀ batches p', update_followings reply true p batches p' →
    unreleased p' = ∅ ∧
    dom (mutual (folnet p')) ⊆ batch_history p' ∧
    list_to_set (released_ids batches) = unreleased (account reply p).
Proof.
  split; [apply new_candidate_batches_total|].
  unfold update_followings. generalize (account reply p). clear p.
  intros p batches p' (Hh & Hm & Hrel)%flush_effect.
  split; [|split; [|exact Hrel]].
  - rewrite unreleased_eq, Hm, Hh. clear. set_solver.
  - rewrite Hm, Hh. apply union_subseteq_r.
Qed.

(** ** A whole crawl *)

(** X8. Over a crawl no id is handed out twice: the ids of all streaming
    results and of the flush are pairwise distinct, none of them had been
    released before the crawl, none is the streamer, and the released set
    only grows. *)
Theorem crawl_releases_once replies p out remaining_batches p' :
  crawl replies p out remaining_batches p' →
  NoDup ((out ≫= released_ids) ++ released_ids remaining_batches) ∧
  (∀ u, u ∈ (out ≫= released_ids) ++ released_ids remaining_batches →
     (u ∉ batch_history p) ∧ u ≠ streamer_id (folnet p) ∧ u ∈ batch_history p') ∧
  batch_history p ⊆ batch_history p'.
Proof.
  intros Hcrawl.
  destruct (crawl_fixed _ _ _ _ _ Hcrawl) as (Hs & _).
  pose proof (crawl_effect _ _ _ _ _ Hcrawl) as (_ & _ & Hh & Hall).
  split_and!.
  - by eapply crawl_NoDup.
  - intros u Hu. apply (elem_of_list_to_set (C := gset string)) in Hu.
    rewrite Hall, elem_of_difference in Hu. destruct Hu as [Hdom Hnew].
    split_and!; [done| |rewrite Hh; set_solver].
    rewrite <- Hs. intros ->. by apply dom_mutual_streamer in Hdom.
  - rewrite Hh. apply union_subseteq_l.
Qed.

Lemma crawl_releases_once_witness :
  ∃ out remaining_batches p',
    crawl demo_replies demo_pipe out remaining_batches p' ∧
    NoDup ((out ≫= released_ids) ++ released_ids remaining_batches) ∧
    batch_history demo_pipe ⊆ batch_history p'.
Proof.
  destruct (crawl_total demo_replies demo_pipe) as (out & rem & p' & Hcrawl).
  exists out, rem, p'. split; [exact Hcrawl|].
  destruct (crawl_releases_once demo_replies demo_pipe out rem p' Hcrawl)
    as (Hnd & _ & Hsub).
  split; [exact Hnd|exact Hsub].
Defined.

(** X9. A crawl by a pipe that starts with a fresh aggregator and nothing
    released hands out exactly the ids, other than the streamer's, that are
    listed at least [min_mutual] times (and at least once) in the replies
    whose total passed the [max_followings] filter; these are also exactly
    the released set at the end. *)
Theorem crawl_releases_mutual_followings sid mm max nc ns replies out
    remaining_batches p' :
  crawl replies (MkFollowNetPipe (FollowerNetwork_init sid mm) max nc ns ∅)
        out remaining_batches p' →
  ∀ k,
    (k ∈ (out ≫= released_ids) ++ released_ids remaining_batches
     ↔ k ≠ sid ∧ k ∈ accepted_ids max replies
       ∧ mm ≤ Z.of_nat (occurrences k (accepted_ids max replies))) ∧
    (k ∈ batch_history p'
     ↔ k ∈ (out ≫= released_ids) ++ released_ids remaining_batches).
Proof.
  intros Hcrawl k.
  pose proof (crawl_effect _ _ _ _ _ Hcrawl) as (Hc & Hm & Hh & Hall).
  simpl in Hc, Hm, Hh, Hall.
  rewrite difference_empty_L in Hall. rewrite union_empty_l_L in Hh.
  rewrite Hh, <- Hall, elem_of_list_to_set. split; [|done].
  rewrite <- (elem_of_list_to_set (C := gset string)), Hall, elem_of_dom_mutual.
  rewrite Hc, Hm. setoid_rewrite lookup_counts_record_init.
  destruct (decide (k ≠ sid ∧ k ∈ accepted_ids max replies)) as [[Hne Hin]|Hno].
  - split.
    + intros (v & [= <-] & Hle). done.
    + intros (_ & _ & Hle). eauto.
  - split.
    + by intros (v & [=] & _).
    + intros (Hne & Hin & _). by destruct Hno.
Qed.

Lemma crawl_releases_mutual_followings_witness :
  ∃ out remaining_batches p',
    crawl demo_replies demo_pipe out remaining_batches p' ∧
    ("X"%string ∈ (out ≫= released_ids) ++ released_ids remaining_batches) ∧
    ("S"%string ∉ (out ≫= released_ids) ++ released_ids remaining_batches) ∧
    ("Z"%string ∉ (out ≫= released_ids) ++ released_ids remaining_batches).
Proof.
  destruct (crawl_total demo_replies demo_pipe) as (out & rem & p' & Hcrawl).
  exists out, rem, p'. split; [exact Hcrawl|].
  pose proof (crawl_releases_mutual_followings "S" 2 150 0 0 demo_replies
                out rem p' Hcrawl) as Hspec.
  split_and!.
  - apply (proj1 (Hspec "X"%string)). split_and!.
    + discriminate.
    + vm_compute. apply elem_of_cons. right. apply elem_of_cons. by left.
    + vm_compute. discriminate.
  - intros Hin. apply (proj1 (Hspec "S"%string)) in Hin as [Hne _]. by apply Hne.
  - intros Hin. apply (proj1 (Hspec "Z"%string)) in Hin as (_ & Hz & _).
    vm_compute in Hz. by repeat (apply elem_of_cons in Hz as [Hz|Hz]; [discriminate|]);
      apply elem_of_nil in Hz.
Defined.

(** X10. Counts never decrease and qualifying candidates stay qualifying:
    after any run of ingestions every id's count, read through the accessor,
    is at least what it was, and every key of [mutual_followings] is still
    a key. *)
Theorem counts_never_decrease replies p out p' :
  ingest_all replies p out p' →
  (∀ k, Counter.get (counts (folnet p)) k ≤ Counter.get (counts (folnet p')) k) ∧
  dom (mutual (folnet p)) ⊆ dom (mutual (folnet p')).
Proof.
  intros (_ & _ & _ & Hc & Hd & _)%ingest_all_effect. split; [|done].
  intros k. rewrite Hc.
  destruct (decide (k = streamer_id (folnet p))) as [->|Hne].
  - pose proof (get_counts_streamer
                  (record (accepted_ids (max_followings p) replies) (folnet p))) as Hs.
    rewrite streamer_id_record in Hs. by rewrite Hs, get_counts_streamer.
  - rewrite get_counts_record by done. lia.
Qed.

Lemma counts_never_decrease_witness :
  (∀ k, Counter.get (counts (folnet demo_pipe)) k
        ≤ Counter.get (counts (folnet demo_ingested)) k) ∧
  dom (mutual (folnet demo_pipe)) ⊆ dom (mutual (folnet demo_ingested)).
Proof.
  apply (counts_never_decrease demo_replies demo_pipe [[]; []; []; []; []]).
  apply ingest_all_exec_sound. vm_compute. reflexivity.
Defined.

(** ** The aggregator on its own *)

(** X11. Recording two reports one after the other counts like recording
    their concatenation, in either order: the counts and the mutual
    followings do not depend on the order in which reports arrive. *)
Theorem record_order_irrelevant ids1 ids2 fn :
  counts (record ids2 (record ids1 fn)) = counts (record (ids1 ++ ids2) fn) ∧
  counts (record ids2 (record ids1 fn)) = counts (record ids1 (record ids2 fn)) ∧
  mutual (record ids2 (record ids1 fn)) = mutual (record ids1 (record ids2 fn)).
Proof.
  assert (counts (record ids2 (record ids1 fn))
          = counts (record ids1 (record ids2 fn))) as Hswap.
  { rewrite !counts_record_record. apply counts_record_Permutation.
    apply Permutation_app_comm. }
  split_and!; [apply counts_record_record|done|].
  apply mutual_ext; [done|]. by rewrite !min_mutual_record.
Qed.

(** X12. Recording is not idempotent: recording the same report twice adds
    every listed id's occurrences twice, so the counts differ from those
    after recording it once as soon as the report lists an id other than
    the streamer. *)
Theorem record_twice_counts_twice ids fn k :
  k ≠ streamer_id fn →
  k ∈ ids →
  Counter.get (counts (record ids (record ids fn))) k
  = Counter.get (counts fn) k + 2 * Z.of_nat (occurrences k ids) ∧
  counts (record ids (record ids fn)) ≠ counts (record ids fn).
Proof.
  intros Hne Hin.
  assert (Counter.get (counts (record ids (record ids fn))) k
          = Counter.get (counts fn) k + 2 * Z.of_nat (occurrences k ids)) as Htwice.
  { rewrite !get_counts_record by (by rewrite ?streamer_id_record). lia. }
  split; [done|]. intros Heq.
  apply (f_equal (λ c, Counter.get c k)) in Heq.
  rewrite Htwice, get_counts_record in Heq by done.
  pose proof (occurrences_pos k ids Hin). lia.
Qed.

Lemma record_twice_counts_twice_witness :
  Counter.get (counts (record ["S"; "X"]%string
                         (record ["S"; "X"]%string (FollowerNetwork_init "S" 1))))
              "X"
  = Counter.get (counts (FollowerNetwork_init "S" 1)) "X"
    + 2 * Z.of_nat (occurrences "X" ["S"; "X"]%string) ∧
  counts (record ["S"; "X"]%string
            (record ["S"; "X"]%string (FollowerNetwork_init "S" 1)))
  ≠ counts (record ["S"; "X"]%string (FollowerNetwork_init "S" 1)).
Proof.
  apply (record_twice_counts_twice ["S"; "X"]%string (FollowerNetwork_init "S" 1) "X").
  - discriminate.
  - apply elem_of_cons. right. apply elem_of_cons. by left.
Defined.

(** X13. Starting from a fresh aggregator, after any sequence of recorded
    reports the accessor shows, for every id other than the streamer that
    some report lists, exactly the number of times it was listed, and no
    entry for any other id; the mutual followings are the ids listed at
    least [min_mutual] times. *)
Theorem counts_of_fresh_aggregator sid mm (reports : list (list string)) k :
  counts (record_all reports (FollowerNetwork_init sid mm)) !! k
  = (if decide (k ≠ sid ∧ k ∈ concat reports)
     then Some (Z.of_nat (occurrences k (concat reports))) else None) ∧
  (k ∈ dom (mutual (record_all reports (FollowerNetwork_init sid mm)))
   ↔ k ≠ sid ∧ k ∈ concat reports ∧ mm ≤ Z.of_nat (occurrences k (concat reports))).
Proof.
  destruct (counts_record_all reports (FollowerNetwork_init sid mm)) as (Hc & _ & Hm).
  assert (counts (record_all reports (FollowerNetwork_init sid mm)) !! k
          = (if decide (k ≠ sid ∧ k ∈ concat reports)
             then Some (Z.of_nat (occurrences k (concat reports))) else None)) as Hk.
  { by rewrite Hc, lookup_counts_record_init. }
  split; [done|]. rewrite elem_of_dom_mutual, Hk, Hm. simpl.
  destruct (decide (k ≠ sid ∧ k ∈ concat reports)) as [[Hne Hin]|Hno].
  - split.
    + by intros (v & [= <-] & Hle).
    + intros (_ & _ & Hle). eauto.
  - split.
    + by intros (v & [=] & _).
    + intros (Hne & Hin & _). by destruct Hno.
Qed.

(** ** The worker pool *)

(** X14. However the tasks of [run] interleave, the queue's count of
    unfinished tasks equals the number of queued items plus the number of
    workers in the middle of a fetch, the pool keeps its [n_consumers]
    workers, and no [task_done] of a worker raises [ValueError]. *)
Theorem task_done_never_raises q_out0 n_consumers self s :
  pool_reachable q_out0 n_consumers self s →
  unfinished_tasks (q_foll_ids s)
  = (length (queue_items (q_foll_ids s)) + in_flight (t_followings s))%nat ∧
  length (t_followings s) = n_consumers ∧
  ¬ pool_step s Raised.
Proof.
  intros (Hq & Hn & _)%pool_reachable_inv. split_and!; [done|done|].
  intros Hstep. remember Raised as o eqn:Ho.
  destruct Hstep as [x s Hp | s Hp | w s rest Hw Hitems
                     | w s x rest Hw Hitems Hne
                     | w s x reply b p' Hw Hupd]; try done.
  - rewrite Hitems in Hq. simpl in Hq. unfold task_done in Ho. simpl in Ho.
    destruct (unfinished_tasks (q_foll_ids s)); [lia|done].
  - pose proof (in_flight_fetched _ _ _ Hw) as Hfl. unfold task_done in Ho.
    destruct (unfinished_tasks (q_foll_ids s)); [lia|done].
Qed.

Lemma task_done_never_raises_witness :
  unfinished_tasks (q_foll_ids demo_pool)
  = (length (queue_items (q_foll_ids demo_pool))
     + in_flight (t_followings demo_pool))%nat ∧
  length (t_followings demo_pool) = 3%nat ∧
  ¬ pool_step demo_pool Raised.
Proof.
  apply (task_done_never_raises (Some Queue_new) 3 demo_pipe demo_pool).
  apply demo_pool_reachable.
Defined.

(** X15. When [q_foll_ids.join()] can return, that is when nothing is
    unfinished, the queue is empty and every worker is parked at
    [await q_in.get()]; if the producer has returned as well, no task can
    run any more, so cancelling the workers interrupts neither a fetch nor
    an update of the pipe. *)
Theorem join_means_idle q_out0 n_consumers self s :
  pool_reachable q_out0 n_consumers self s →
  unfinished_tasks (q_foll_ids s) = 0%nat →
  queue_items (q_foll_ids s) = [] ∧
  Forall (λ t, t = AwaitGet) (t_followings s) ∧
  (t_prod_done s = true → ∀ o, ¬ pool_step s o).
Proof.
  intros (Hq & _)%pool_reachable_inv H0. rewrite H0 in Hq.
  assert (queue_items (q_foll_ids s) = []) as Hitems.
  { destruct (queue_items (q_foll_ids s)); [done|simpl in Hq; lia]. }
  assert (Forall (λ t, t = AwaitGet) (t_followings s)) as Hidle.
  { apply in_flight_none. lia. }
  split_and!; [done|done|].
  intros Hdone o Hstep.
  destruct Hstep as [x s Hp | s Hp | w s rest Hw Hitems'
                     | w s x rest Hw Hitems' Hne
                     | w s x reply b p' Hw Hupd]; try congruence.
  rewrite Forall_lookup in Hidle. by apply Hidle in Hw.
Qed.

Lemma join_means_idle_witness :
  queue_items (q_foll_ids demo_pool_joined) = [] ∧
  Forall (λ t, t = AwaitGet) (t_followings demo_pool_joined) ∧
  (t_prod_done demo_pool_joined = true → ∀ o, ¬ pool_step demo_pool_joined o).
Proof.
  apply (join_means_idle (Some Queue_new) 3 demo_pipe demo_pool_joined).
  - apply demo_pool_joined_reachable.
  - reflexivity.
Defined.

(** X16. Along any schedule of [run], the pipe reached is the pipe obtained
    by ingesting a list of replies one after the other, one reply per
    completed fetch; no fetch is ever started or completed for the
    sentinel, so nothing is ingested for it; and [q_out], when there is
    one, has received exactly the non-empty streaming results of those
    ingestions, in that order. *)
Theorem pool_ingests_sequentially q_out0 n_consumers self path s :
  pool_path (run_start q_out0 n_consumers self) path s →
  (∀ (w : nat) follower_id,
     t_followings s !! w = Some (AwaitFetch follower_id) →
     follower_id ≠ SENTINEL) ∧
  (SENTINEL ∉ completed_along (run_start q_out0 n_consumers self) path) ∧
  ∃ replies out,
    length replies
    = length (completed_along (run_start q_out0 n_consumers self) path) ∧
    ingest_all replies self out (self_pipe s) ∧
    (is_Some (q_out s) ↔ is_Some q_out0) ∧
    out_items (q_out s)
    = out_items q_out0
      ++ match q_out0 with
         | Some _ => Streamed <$> forwarded out
         | None => []
         end.
Proof.
  intros Hpath.
  destruct (pool_path_ingests q_out0 self _ _ _ Hpath) with (replies := @nil following_reply)
    (out := @nil (list item)) as (Hinv & Hno & replies & out & Hlen & Hing & Hout).
  - intros w x Hw. simpl in Hw. by apply lookup_replicate in Hw as [? _].
  - constructor.
  - done.
  - split_and!; [done|done|]. exists replies, out. simpl in Hing, Hout.
    split_and!; [done|done| |].
    + rewrite Hout. clear. revert q_out0.
      induction out as [|b out IH]; intros q_out0; [done|].
      simpl. rewrite IH. by destruct q_out0, b.
    + rewrite Hout. apply out_items_forward.
Qed.

Lemma pool_ingests_sequentially_witness :
  completed_along (run_start (Some Queue_new) 3 demo_pipe) demo_schedule
  = ["A"; "B"]%string ∧
  (∀ (w : nat) follower_id,
     t_followings demo_pool_joined !! w = Some (AwaitFetch follower_id) →
     follower_id ≠ SENTINEL) ∧
  (SENTINEL ∉ completed_along (run_start (Some Queue_new) 3 demo_pipe)
                              demo_schedule) ∧
  ∃ replies out,
    length replies
    = length (completed_along (run_start (Some Queue_new) 3 demo_pipe)
                              demo_schedule) ∧
    ingest_all replies demo_pipe out (self_pipe demo_pool_joined) ∧
    (is_Some (q_out demo_pool_joined) ↔ is_Some (Some (@Queue_new queued))) ∧
    out_items (q_out demo_pool_joined)
    = out_items (Some Queue_new) ++ (Streamed <$> forwarded out).
Proof.
  split; [reflexivity|].
  apply (pool_ingests_sequentially (Some Queue_new) 3 demo_pipe demo_schedule
           demo_pool_joined).
  apply demo_schedule_path.
Defined.

(** X17. When [run] finishes, its pipe is the end of a crawl over the
    replies of the completed fetches, the workers are gone, and [q_out], if
    one was given, has received lists of ids only: each holds between 1 and
    100 ids, no id occurs twice among them, and together they are exactly
    the keys of [mutual_followings] at the end that had not been released
    before [run] started. Without a [q_out] nothing is put anywhere. *)
Theorem run_output q_out0 n_consumers self s remaining_batches s' :
  pool_reachable q_out0 n_consumers self s →
  run_finish s remaining_batches s' →
  (∃ replies out, crawl replies self out remaining_batches (self_pipe s')) ∧
  t_followings s' = [] ∧
  ∃ added,
    out_items (q_out s') = out_items q_out0 ++ added ∧
    (q_out0 = None → added = [] ∧ q_out s' = None) ∧
    (is_Some q_out0 →
     Forall (λ v, ∃ ids, is_uid_list v ids ∧ (0 < length ids ≤ 100)%nat) added ∧
     NoDup (added ≫= queued_ids) ∧
     list_to_set (added ≫= queued_ids)
     = dom (mutual (folnet (self_pipe s'))) ∖ batch_history self).
Proof.
  intros (_ & _ & replies & out & Hing & Hout)%pool_reachable_inv Hfin.
  destruct Hfin as [rem p' Hdone Hjoin Hflush]. simpl.
  assert (crawl replies self out rem p') as Hcrawl by (by econstructor).
  split; [by exists replies, out|]. split; [done|].
  rewrite out_items_forward_all, Hout, out_items_forward.
  destruct q_out0 as [q0|].
  - assert (is_Some (foldl forward (Some q0) out)) as [q Hq].
    { clear. revert q0. induction out as [|b out IH]; intros q0; [by eexists|].
      simpl. destruct b; apply IH. }
    rewrite Hq. exists ((Streamed <$> forwarded out) ++ (Flushed <$> rem)).
    split; [by rewrite app_assoc|]. split; [done|]. intros _.
    rewrite bind_app, queued_ids_streamed, queued_ids_flushed,
      forwarded_released_ids.
    split_and!.
    + apply Forall_app. split.
      * apply ingest_all_streamed in Hing. rewrite Forall_fmap.
        eapply Forall_impl; [exact Hing|].
        intros b (ids & -> & Hlen). exists ids. split; [by left|]. simpl. lia.
      * apply new_candidate_batches_inv in Hflush as (cands & _ & -> & _).
        rewrite batchify_flush, Forall_fmap, Forall_fmap, Forall_lookup.
        intros i c Hc. exists c. split; [by right|].
        apply (lookup_slices BATCH_SZ BATCH_SZ_pos) in Hc. unfold BATCH_SZ in Hc. lia.
    + by eapply crawl_NoDup.
    + by apply crawl_effect in Hcrawl as (_ & _ & _ & ->).
  - assert (foldl forward None out = None) as ->.
    { clear. induction out as [|b out IH]; [done|]. simpl. by destruct b. }
    exists []. split; [done|]. split; [done|]. by intros [? ?].
Qed.

Lemma run_output_witness :
  ∃ remaining_batches s',
    run_finish demo_pool_joined remaining_batches s' ∧
    t_followings s' = [] ∧
    ∃ added,
      out_items (q_out s') = out_items (Some Queue_new) ++ added ∧
      NoDup (added ≫= queued_ids) ∧
      list_to_set (added ≫= queued_ids)
      = dom (mutual (folnet (self_pipe s'))) ∖ batch_history demo_pipe.
Proof.
  destruct (new_candidate_batches_total true (self_pipe demo_pool_joined))
    as (rem & p' & Hflush).
  assert (run_finish demo_pool_joined rem
            (MkPool (q_foll_ids demo_pool_joined)
                    (forward_all (q_out demo_pool_joined) rem) true [] p')) as Hfin.
  { constructor; [reflexivity|reflexivity|exact Hflush]. }
  eexists rem, _. split; [exact Hfin|].
  destruct (run_output (Some Queue_new) 3 demo_pipe demo_pool_joined rem _
              demo_pool_joined_reachable Hfin)
    as (_ & Hgone & added & Hitems & _ & Hsome).
  split; [exact Hgone|]. exists added. split; [exact Hitems|].
  destruct (Hsome (ex_intro _ Queue_new eq_refl)) as (_ & Hnd & Hset).
  split; [exact Hnd|exact Hset].
Defined.

(** X20. With [n_consumers = 0] nobody takes anything off the queue: the
    pipe and [q_out] stay as they were, and once the producer has put an
    item, [q_foll_ids.join()] can never return, so [run] never reaches its
    flush. *)
Theorem no_consumers_never_finishes q_out0 self s :
  pool_reachable q_out0 0 self s →
  self_pipe s = self ∧ q_out s = q_out0 ∧
  (queue_items (q_foll_ids s) ≠ [] →
   ∀ s', rtc pool_next s s' →
     unfinished_tasks (q_foll_ids s') ≠ 0%nat ∧
     ∀ remaining_batches s'', ¬ run_finish s' remaining_batches s'').
Proof.
  intros Hreach.
  destruct (pool_without_workers _ _ Hreach eq_refl) as (Hnone & Hpipe & Hout & _).
  split_and!; [done|done|].
  intros Hitems s' Hlater.
  destruct (pool_without_workers _ _ Hlater Hnone) as (_ & _ & _ & Hitems').
  assert (pool_reachable q_out0 0 self s') as Hreach'.
  { unfold pool_reachable in *. by eapply rtc_trans. }
  apply pool_reachable_inv in Hreach' as (Hq & _).
  assert (unfinished_tasks (q_foll_ids s') ≠ 0%nat) as Hne.
  { rewrite Hq. specialize (Hitems' Hitems).
    destruct (queue_items (q_foll_ids s')); [done|simpl; lia]. }
  split; [done|]. intros rem s'' Hfin. by destruct Hfin.
Qed.

Lemma no_consumers_never_finishes_witness :
  unfinished_tasks
    (q_foll_ids (MkPool (put_nowait "B"%string (put_nowait "A"%string Queue_new))
                        None true [] demo_pipe)) ≠ 0%nat ∧
  ¬ ∃ remaining_batches s'',
      run_finish (MkPool (put_nowait "B"%string (put_nowait "A"%string Queue_new))
                         None true [] demo_pipe) remaining_batches s''.
Proof.
  destruct (no_consumers_never_finishes None demo_pipe
              (MkPool (put_nowait "A"%string Queue_new) None false [] demo_pipe))
    as (_ & _ & Hstuck).
  - unfold pool_reachable. eapply rtc_l; [|apply rtc_refl].
    apply (step_put "A"). reflexivity.
  - destruct (Hstuck ltac:(discriminate)
                (MkPool (put_nowait "B"%string (put_nowait "A"%string Queue_new))
                        None true [] demo_pipe)) as [Hne Hno].
    + eapply rtc_l; [apply (step_put "B"); reflexivity|].
      eapply rtc_l; [apply step_prod_returns; reflexivity|]. apply rtc_refl.
    + split; [exact Hne|]. intros (rem & s'' & Hfin). exact (Hno rem s'' Hfin).
Defined.
